(** * TreeView (src/ui/TreeView.cpp): the collapse counter, selection relay
      and discard confirmation of the staged/unstaged file tree.

    The widget sits on top of the toolkit's model/view classes.  The part of
    the toolkit the handlers read is modelled explicitly: the rows of the
    item model form a tree, the view stores one expanded flag per row, and
    indexes are paths of row numbers from the (invalid) root index. *)

From stdpp Require Import base list option strings.
From Stdlib Require Import ZArith Lia.

Set Default Proof Using "Type".

(** ** The item model and the per-row expanded state of the view *)

(** A row of the item model together with the flag [QTreeView] stores for it
    ([isExpanded]).  Only column 0 carries children. *)
Local Unset Elimination Schemes.
Inductive Row : Type :=
  MkRow { rowExpanded : bool; rowChildren : list Row }.
Local Set Elimination Schemes.

(** [QModelIndex]: the row numbers leading from the root to the row.  The
    empty path is the invalid index [QModelIndex()], the parent of the
    top-level rows. *)
Definition QModelIndex : Type := list nat.

#[global] Instance QModelIndex_eq_dec : EqDecision QModelIndex :=
  _ : EqDecision (list nat).

Definition invalidIndex : QModelIndex := [].

Definition isValid (idx : QModelIndex) : bool :=
  match idx with [] => false | _ :: _ => true end.

(** [model->index(i, 0, parent)] *)
Definition index (i : nat) (parent : QModelIndex) : QModelIndex :=
  parent ++ [i].

(** [idx.parent()] *)
Definition parentOf (idx : QModelIndex) : QModelIndex := removelast idx.

(** The child rows of [idx]; no rows below an index that does not exist. *)
Fixpoint rowsAt (m : list Row) (idx : QModelIndex) : list Row :=
  match idx with
  | [] => m
  | r :: p =>
      match m !! r with
      | Some n => rowsAt (rowChildren n) p
      | None => []
      end
  end.

(** The row an index points at. *)
Fixpoint rowAt (m : list Row) (idx : QModelIndex) : option Row :=
  match idx with
  | [] => None
  | r :: p =>
      match m !! r with
      | Some n => match p with [] => Some n | _ :: _ => rowAt (rowChildren n) p end
      | None => None
      end
  end.

(** [model->rowCount(parent)] *)
Definition rowCount (m : list Row) (parent : QModelIndex) : nat :=
  length (rowsAt m parent).

(** [QTreeView::isExpanded(idx)] *)
Definition isExpanded (m : list Row) (idx : QModelIndex) : bool :=
  match rowAt m idx with
  | Some n => rowExpanded n
  | None => false
  end.

(** Nesting depth of the model, the bound on the recursion of
    [countCollapsed]. *)
Fixpoint rowDepth (n : Row) : nat :=
  S ((fix go (l : list Row) : nat :=
        match l with
        | [] => 0
        | c :: l' => Nat.max (rowDepth c) (go l')
        end) (rowChildren n)).

Fixpoint rowsDepth (l : list Row) : nat :=
  match l with
  | [] => 0
  | c :: l' => Nat.max (rowDepth c) (rowsDepth l')
  end.

(** ** countCollapsed *)

(** Modelled from the spec: TreeView.h, which declares the default
    arguments of [countCollapsed], is not part of the sources.  The call
    without arguments is the traversal of the whole model the spec
    describes, so [parent] defaults to [QModelIndex()]. *)
Definition parentDefault : QModelIndex := invalidIndex.

(** Modelled from the spec: the default of [recursive], declared in
    TreeView.h as well, is [true]: the call without arguments is the full
    traversal, and the one-level calls pass [false] explicitly. *)
Definition recursiveDefault : bool := true.

(** The loop of [TreeView::countCollapsed], with the recursion bounded by
    [fuel] levels.  The inner call [countCollapsed(idx)] leaves [recursive]
    at its default. *)
Fixpoint countCollapsedUpTo (fuel : nat) (m : list Row)
    (parent : QModelIndex) (recursive : bool) : Z :=
  match fuel with
  | O => 0
  | S fuel' =>
      fold_left
        (fun (count : Z) (i : nat) =>
           let idx := index i parent in
           let count :=
             if bool_decide (rowCount m idx ≠ 0%nat) && negb (isExpanded m idx)
             then (count + 1)%Z else count in
           if recursive
           then (count + countCollapsedUpTo fuel' m idx recursiveDefault)%Z
           else count)
        (seq 0 (rowCount m parent)) 0%Z
  end.

(** [countCollapsed(parent, recursive)]: the model is finite, so the
    recursion ends after [rowsDepth m] levels. *)
Definition countCollapsed (m : list Row) (parent : QModelIndex)
    (recursive : bool) : Z :=
  countCollapsedUpTo (S (rowsDepth m)) m parent recursive.

(** ** Counting on the tree itself *)

(** A row that has at least one child and is not expanded. *)
Definition collapsedFolder (n : Row) : bool :=
  bool_decide (rowChildren n ≠ []) && negb (rowExpanded n).

Definition b2z (b : bool) : Z := if b then 1%Z else 0%Z.

(** Number of rows below (and including) [n] that have a child and are not
    expanded, whether or not they are shown. *)
Fixpoint collapsedIn (n : Row) : Z :=
  (b2z (collapsedFolder n) +
   (fix go (l : list Row) : Z :=
      match l with
      | [] => 0
      | c :: l' => collapsedIn c + go l'
      end) (rowChildren n))%Z.

Fixpoint collapsedInRows (l : list Row) : Z :=
  match l with
  | [] => 0%Z
  | c :: l' => (collapsedIn c + collapsedInRows l')%Z
  end.

(** Number of rows of one level that have a child and are not expanded. *)
Fixpoint collapsedAmong (l : list Row) : Z :=
  match l with
  | [] => 0%Z
  | c :: l' => (b2z (collapsedFolder c) + collapsedAmong l')%Z
  end.

(** The sum of a per-row amount over one level. *)
Definition sumRows (G : Row → Z) (l : list Row) : Z :=
  foldr (λ n acc, G n + acc)%Z 0%Z l.

(** Induction over rows, with the children handled by [Forall]. *)
Section RowInduction.
Variable P : Row → Prop.
Hypothesis step : ∀ e cs, Forall P cs → P (MkRow e cs).

Fixpoint Row_ind (n : Row) : P n :=
  match n with
  | MkRow e cs =>
      step e cs
        ((fix go (l : list Row) : Forall P l :=
            match l with
            | [] => List.Forall_nil P
            | c :: l' => List.Forall_cons P c l' (Row_ind c) (go l')
            end) cs)
  end.
End RowInduction.


(** ** The state of the view *)

(** The signals of [TreeView]. *)
Inductive Signal : Type :=
  | fileSelected (index : QModelIndex)
  | collapseCountChanged (count : Z).

(** The members the handlers read and write, the part of the base-class
    state they go through (rows with their expanded flags, the selection
    model's [selectedIndexes()], current and root index), and the signals
    emitted so far, oldest first.  The counter is an [int]; it is kept in
    [Z], the handlers adding and subtracting row counts that stay far from
    the ends of the [int] range. *)
Record TreeView : Type := MkTreeView {
  model : list Row;
  selectedIndexes : list QModelIndex;
  currentIndex : QModelIndex;
  rootIndex : QModelIndex;
  mCollapseCount : Z;
  mSupressItemExpandStateChanged : bool;
  suppressDeselectionHandling : bool;
  emitted : list Signal
}.

Definition withModel (m : list Row) (v : TreeView) : TreeView :=
  MkTreeView m (selectedIndexes v) (currentIndex v) (rootIndex v)
    (mCollapseCount v) (mSupressItemExpandStateChanged v)
    (suppressDeselectionHandling v) (emitted v).

Definition withSelection (sel : list QModelIndex) (v : TreeView) : TreeView :=
  MkTreeView (model v) sel (currentIndex v) (rootIndex v)
    (mCollapseCount v) (mSupressItemExpandStateChanged v)
    (suppressDeselectionHandling v) (emitted v).

(** [QAbstractItemView::setCurrentIndex], as the store of the current index.
    The toolkit's call also selects a valid index, which comes back as a
    further [selectionChanged], a nested run of the slot: a
    selection-changed event of its own, not part of this one. *)
Definition setCurrentIndex (idx : QModelIndex) (v : TreeView) : TreeView :=
  MkTreeView (model v) (selectedIndexes v) idx (rootIndex v)
    (mCollapseCount v) (mSupressItemExpandStateChanged v)
    (suppressDeselectionHandling v) (emitted v).

Definition setRootIndex (idx : QModelIndex) (v : TreeView) : TreeView :=
  MkTreeView (model v) (selectedIndexes v) (currentIndex v) idx
    (mCollapseCount v) (mSupressItemExpandStateChanged v)
    (suppressDeselectionHandling v) (emitted v).

Definition withCollapseCount (value : Z) (v : TreeView) : TreeView :=
  MkTreeView (model v) (selectedIndexes v) (currentIndex v) (rootIndex v)
    value (mSupressItemExpandStateChanged v)
    (suppressDeselectionHandling v) (emitted v).

Definition withSupressItemExpandStateChanged (b : bool) (v : TreeView)
    : TreeView :=
  MkTreeView (model v) (selectedIndexes v) (currentIndex v) (rootIndex v)
    (mCollapseCount v) b (suppressDeselectionHandling v) (emitted v).

Definition withSuppressDeselectionHandling (b : bool) (v : TreeView)
    : TreeView :=
  MkTreeView (model v) (selectedIndexes v) (currentIndex v) (rootIndex v)
    (mCollapseCount v) (mSupressItemExpandStateChanged v) b (emitted v).

(** [emit sig(...)] *)
Definition emit (sig : Signal) (v : TreeView) : TreeView :=
  MkTreeView (model v) (selectedIndexes v) (currentIndex v) (rootIndex v)
    (mCollapseCount v) (mSupressItemExpandStateChanged v)
    (suppressDeselectionHandling v) (emitted v ++ [sig]).

(** ** The collapse counter *)

(** A handler returns the new state, or [None] when one of its [assert]s
    fails. *)
Definition assertion (b : bool) : option unit :=
  if b then Some () else None.

Definition setCollapseCount (value : Z) (v : TreeView) : option TreeView :=
  _ ← assertion (bool_decide (0 ≤ value)%Z);
  let v := withCollapseCount value v in
  Some (emit (collapseCountChanged (mCollapseCount v)) v).

(** [Qt::CheckStateRole] *)
Definition CheckStateRole : Z := 10.

(** The slot of [dataChanged].  [roles[0]] on an empty vector is outside the
    vector: the container's range check fails like an assertion. *)
Definition updateCollapseCount_dataChanged
    (topLeft bottomRight : QModelIndex) (roles : list Z) (v : TreeView)
    : option TreeView :=
  _ ← assertion (bool_decide (topLeft = bottomRight));
  role ← roles !! 0%nat;
  if bool_decide (role ≠ CheckStateRole) then Some v
  else setCollapseCount (countCollapsed (model v) parentDefault recursiveDefault) v.

(** The slot of [rowsInserted]. *)
Definition updateCollapseCount_rowsInserted
    (parent : QModelIndex) (first last : Z) (v : TreeView) : option TreeView :=
  setCollapseCount (countCollapsed (model v) parentDefault recursiveDefault) v.

Definition itemExpanded (idx : QModelIndex) (v : TreeView) : option TreeView :=
  if mSupressItemExpandStateChanged v then Some v
  else setCollapseCount
         (mCollapseCount v - 1 + countCollapsed (model v) idx false)%Z v.

Definition itemCollapsed (idx : QModelIndex) (v : TreeView) : option TreeView :=
  if mSupressItemExpandStateChanged v then Some v
  else setCollapseCount
         (mCollapseCount v + 1 - countCollapsed (model v) idx false)%Z v.

(** *** The base class: storing expanded flags and emitting the signals

    [setModel] connects [expanded] to [itemExpanded] and [collapsed] to
    [itemCollapsed]; the slots run inside the emitting call. *)

(** Store flag [b] for the row at [idx]. *)
Fixpoint storeExpanded (m : list Row) (idx : QModelIndex) (b : bool)
    : list Row :=
  match idx with
  | [] => m
  | r :: p =>
      match m !! r with
      | Some n =>
          <[r := match p with
                 | [] => MkRow b (rowChildren n)
                 | _ :: _ =>
                     MkRow (rowExpanded n) (storeExpanded (rowChildren n) p b)
                 end]> m
      | None => m
      end
  end.

(** [QTreeView::expand(idx)]: nothing happens for a missing row or one that
    is expanded already; otherwise the flag is stored and [expanded(idx)] is
    emitted.  The view does this for the row the user opens, and for any
    row the application or a key press names. *)
Definition QTreeView_expand (idx : QModelIndex) (v : TreeView)
    : option TreeView :=
  match rowAt (model v) idx with
  | Some n =>
      if rowExpanded n then Some v
      else itemExpanded idx (withModel (storeExpanded (model v) idx true) v)
  | None => Some v
  end.

(** [QTreeView::collapse(idx)] *)
Definition QTreeView_collapse (idx : QModelIndex) (v : TreeView)
    : option TreeView :=
  match rowAt (model v) idx with
  | Some n =>
      if rowExpanded n
      then itemCollapsed idx (withModel (storeExpanded (model v) idx false) v)
      else Some v
  | None => Some v
  end.

(** Every row gets flag [b]. *)
Fixpoint storeAllIn (b : bool) (n : Row) : Row :=
  MkRow b (List.map (storeAllIn b) (rowChildren n)).

Definition storeAll (b : bool) (m : list Row) : list Row :=
  List.map (storeAllIn b) m.

(** The indexes, parents first, of the rows below [parent] that satisfy
    [keep]. *)
Fixpoint indexesIn (keep : Row → bool) (n : Row) (idx : QModelIndex)
    : list QModelIndex :=
  (if keep n then [idx] else []) ++
  (fix go (l : list Row) (i : nat) : list QModelIndex :=
     match l with
     | [] => []
     | c :: l' => indexesIn keep c (index i idx) ++ go l' (S i)
     end) (rowChildren n) 0%nat.

Fixpoint indexesInRows (keep : Row → bool) (l : list Row)
    (parent : QModelIndex) (i : nat) : list QModelIndex :=
  match l with
  | [] => []
  | c :: l' =>
      indexesIn keep c (index i parent) ++ indexesInRows keep l' parent (S i)
  end.

(** Run a slot for each emitted index, stopping at a failed assertion. *)
Definition deliver (slot : QModelIndex → TreeView → option TreeView)
    (idxs : list QModelIndex) (v : TreeView) : option TreeView :=
  foldl (λ acc idx, v' ← acc; slot idx v') (Some v) idxs.

(** [QTreeView::expandAll()]: all rows are stored as expanded, and
    [expanded] is emitted for each row that was not. *)
Definition QTreeView_expandAll (v : TreeView) : option TreeView :=
  let changed :=
    indexesInRows (λ n, negb (rowExpanded n)) (model v) invalidIndex 0 in
  deliver itemExpanded changed (withModel (storeAll true (model v)) v).

(** [QTreeView::collapseAll()]: the set of expanded rows is cleared, and
    [collapsed] is emitted for each row that was in it. *)
Definition QTreeView_collapseAll (v : TreeView) : option TreeView :=
  let changed := indexesInRows rowExpanded (model v) invalidIndex 0 in
  deliver itemCollapsed changed (withModel (storeAll false (model v)) v).

(** *** expandAll and collapseAll of the view *)

Definition expandAll (v : TreeView) : option TreeView :=
  let v := withSupressItemExpandStateChanged true v in
  v ← QTreeView_expandAll v;
  let v := withSupressItemExpandStateChanged false v in
  setCollapseCount 0 v.

Definition collapseAll (v : TreeView) : option TreeView :=
  let v := withSupressItemExpandStateChanged true v in
  v ← QTreeView_collapseAll v;
  let v := withSupressItemExpandStateChanged false v in
  setCollapseCount (Z.of_nat (rowCount (model v) invalidIndex)) v.

(** ** Selection *)

(** The slot of [selectionChanged]; [selected] is not read. *)
Definition handleSelectionChange (selected deselected : list QModelIndex)
    (v : TreeView) : TreeView :=
  let indexes := selectedIndexes v in
  let v :=
    if bool_decide (0 < length indexes)%nat then
      let index :=
        if bool_decide (length indexes = 1%nat)
        then default invalidIndex (head indexes) else invalidIndex in
      emit (fileSelected index) v
    else v in
  if suppressDeselectionHandling v then v
  else if bool_decide (indexes = []) && negb (bool_decide (deselected = []))
  then
    let parent := parentOf (default invalidIndex (head deselected)) in
    let v := setCurrentIndex parent v in
    if negb (isValid parent) then setRootIndex invalidIndex v else v
  else v.

(** The selection model replaces the selection by [sel] and emits
    [selectionChanged] with what was added and what was dropped; nothing is
    emitted when both are empty. *)
Definition QItemSelectionModel_select (sel : list QModelIndex) (v : TreeView)
    : TreeView :=
  let old := selectedIndexes v in
  let selected := filter (λ i, i ∉ old) sel in
  let deselected := filter (λ i, i ∉ sel) old in
  let v := withSelection sel v in
  if bool_decide (selected = []) && bool_decide (deselected = []) then v
  else handleSelectionChange selected deselected v.

(** [selectionModel()->clearSelection()] *)
Definition clearSelection (v : TreeView) : TreeView :=
  QItemSelectionModel_select [] v.

Definition deselectAll (v : TreeView) : TreeView :=
  let v := withSuppressDeselectionHandling true v in
  let v := clearSelection v in
  withSuppressDeselectionHandling false v.

(** ** Discarding changes *)

(** What [discard] reads from the [DiffTreeModel]: the result of
    [m->discard(sIndex)], and the data of an index under [PatchIndexRole]
    and [Qt::DisplayRole]. *)
Record DiffTreeModel : Type := MkDiffTreeModel {
  discardResult : QModelIndex → bool;
  patchIndexData : QModelIndex → Z;
  displayData : QModelIndex → string
}.

(** The classes [qobject_cast] tells apart. *)
Inductive SourceModel : Type :=
  | DiffTreeSource (m : DiffTreeModel)
  | OtherSource.

Inductive ItemModel : Type :=
  | SortFilterProxy (source : option SourceModel)
      (mapToSource : QModelIndex → QModelIndex)
  | OtherItemModel.

Record RepoView : Type := MkRepoView { repoViewName : string }.

Record LogEntry : Type := MkLogEntry { entryText : string; entryTitle : string }.

(** The widget as [discard] sees it: [this->model()], null when no model is
    set, and [RepoView::parentView(this)]. *)
Record Widget : Type := MkWidget {
  itemModel : option ItemModel;
  parentView : option RepoView
}.

(** Calls into the collaborators, in the order they are made. *)
Inductive Effect : Type :=
  | ModelDiscard (sIndex : QModelIndex)
  | AddLogEntry (view : RepoView) (entry : LogEntry)
  | ShowError (view : RepoView) (parent : LogEntry) (action name : string).

Definition countEffects (p : Effect → bool) (trace : list Effect) : nat :=
  length (List.filter p trace).

Definition isModelDiscard (e : Effect) : bool :=
  match e with ModelDiscard _ => true | _ => false end.
Definition isAddLogEntry (e : Effect) : bool :=
  match e with AddLogEntry _ _ => true | _ => false end.
Definition isShowError (e : Effect) : bool :=
  match e with ShowError _ _ _ _ => true | _ => false end.

(** The dialog [discard] builds, with what the slot of its Discard button
    captured. *)
Record QMessageBox : Type := MkQMessageBox {
  dialogTitle : string;
  dialogText : string;
  dialogInformativeText : string;
  capturedModel : DiffTreeModel;
  capturedIndex : QModelIndex
}.

Definition asSortFilterProxy (m : option ItemModel)
    : option (option SourceModel * (QModelIndex → QModelIndex)) :=
  match m with
  | Some (SortFilterProxy src f) => Some (src, f)
  | _ => None
  end.

Definition asDiffTreeModel (m : option SourceModel) : option DiffTreeModel :=
  match m with
  | Some (DiffTreeSource d) => Some d
  | _ => None
  end.

(** [TreeView::discard]; [None] is a failed [assert].  The names shown are
    taken to hold no place marker, so the second [arg(name)] on the text
    changes nothing. *)
Definition discard (w : Widget) (index : QModelIndex) : option QMessageBox :=
  p ← asSortFilterProxy (itemModel w);
  m ← asDiffTreeModel p.1;
  let sIndex := p.2 index in
  let patchIndex := patchIndexData m sIndex in
  let name := displayData m sIndex in
  let arg := if bool_decide (patchIndex < 0)%Z then "Directory" else "File" in
  let title := "Remove or discard " +:+ name +:+ "?" in
  let text :=
    "Are you sure you want to remove or discard all changes in '"
      +:+ name +:+ "'?" in
  Some (MkQMessageBox title text "This action cannot be undone." m sIndex).

(** The slot connected to the Discard button: the calls it makes, and
    whether it ran to its end ([false]: the [assert] on the parent view
    failed). *)
Definition discardClicked (w : Widget) (m : DiffTreeModel)
    (sIndex : QModelIndex) : list Effect * bool :=
  if negb (discardResult m sIndex) then
    let patchName := displayData m sIndex in
    match parentView w with
    | None => ([ModelDiscard sIndex], false)
    | Some view =>
        let parent := MkLogEntry patchName "Discard" in
        ([ModelDiscard sIndex;
          AddLogEntry view parent;
          ShowError view parent "discard" patchName], true)
    end
  else ([ModelDiscard sIndex], true).

(** ** Sequences of expand and collapse operations *)

Inductive Operation : Type :=
  | ExpandRow (idx : QModelIndex)
  | CollapseRow (idx : QModelIndex)
  | ExpandAll
  | CollapseAll.

Definition perform (op : Operation) (v : TreeView) : option TreeView :=
  match op with
  | ExpandRow idx => QTreeView_expand idx v
  | CollapseRow idx => QTreeView_collapse idx v
  | ExpandAll => expandAll v
  | CollapseAll => collapseAll v
  end.

Fixpoint performAll (ops : list Operation) (v : TreeView) : option TreeView :=
  match ops with
  | [] => Some v
  | op :: ops' => v' ← perform op v; performAll ops' v'
  end.

(** ** The counts the counter is compared with *)

(** The count over the rows that are shown: a row is counted when it has a
    child and is not expanded, and the rows below it are visited only when
    it is expanded. *)
Fixpoint shownCollapsedIn (n : Row) : Z :=
  (b2z (collapsedFolder n) +
   if rowExpanded n then
     (fix go (l : list Row) : Z :=
        match l with
        | [] => 0
        | c :: l' => shownCollapsedIn c + go l'
        end) (rowChildren n)
   else 0)%Z.

Fixpoint shownCollapsedInRows (l : list Row) : Z :=
  match l with
  | [] => 0%Z
  | c :: l' => (shownCollapsedIn c + shownCollapsedInRows l')%Z
  end.

(** The count the single-row handlers keep up to date: rows that have a
    child, are not expanded, and whose parent row is expanded;
    [parentExpanded] is the flag of the parent of [n], and top-level rows
    count as having an expanded parent. *)
Fixpoint collapsedUnderExpandedIn (parentExpanded : bool) (n : Row) : Z :=
  (b2z (parentExpanded && collapsedFolder n) +
   (fix go (l : list Row) : Z :=
      match l with
      | [] => 0
      | c :: l' => collapsedUnderExpandedIn (rowExpanded n) c + go l'
      end) (rowChildren n))%Z.

Fixpoint collapsedUnderExpandedRows (parentExpanded : bool) (l : list Row)
    : Z :=
  match l with
  | [] => 0%Z
  | c :: l' =>
      (collapsedUnderExpandedIn parentExpanded c
       + collapsedUnderExpandedRows parentExpanded l')%Z
  end.

Definition collapsedUnderExpanded (m : list Row) : Z :=
  collapsedUnderExpandedRows true m.

(** The row at [idx] is a top-level row or its parent row is expanded. *)
Definition underExpandedParent (m : list Row) (idx : QModelIndex) : bool :=
  negb (isValid (parentOf idx)) || isExpanded m (parentOf idx).

(** The same below a level whose parent row has flag [parentExpanded]. *)
Definition underExpandedParentOr (parentExpanded : bool) (m : list Row)
    (idx : QModelIndex) : bool :=
  if isValid (parentOf idx) then isExpanded m (parentOf idx)
  else parentExpanded.

(** The operations the counter follows: a single row is expanded or
    collapsed only if it has a child and its parent is expanded (the rows
    whose branch indicator is on screen are among these), and [collapseAll]
    is used on a model whose top-level rows all have a child. *)
Definition followed (op : Operation) (v : TreeView) : bool :=
  match op with
  | ExpandRow idx | CollapseRow idx =>
      bool_decide (rowCount (model v) idx ≠ 0%nat)
        && underExpandedParent (model v) idx
  | ExpandAll => true
  | CollapseAll =>
      forallb (λ n, bool_decide (rowChildren n ≠ [])) (model v)
  end.

(** Every operation of a run satisfies [ok] in the state it is applied to;
    nothing is asked of what follows a failed assertion. *)
Fixpoint allAlong (ok : Operation → TreeView → bool) (ops : list Operation)
    (v : TreeView) : bool :=
  match ops with
  | [] => true
  | op :: ops' =>
      ok op v &&
      match perform op v with
      | Some v' => allAlong ok ops' v'
      | None => true
      end
  end.

(** The counter agrees with the rows, and no bulk operation is under way. *)
Definition tracksUnderExpanded (v : TreeView) : Prop :=
  mSupressItemExpandStateChanged v = false ∧
  mCollapseCount v = collapsedUnderExpanded (model v).

(** The counter is at least the count under expanded parents. *)
Definition coversUnderExpanded (v : TreeView) : Prop :=
  mSupressItemExpandStateChanged v = false ∧
  (collapsedUnderExpanded (model v) ≤ mCollapseCount v)%Z.

(** As [followed], with [collapseAll] on any model. *)
Definition followedRow (op : Operation) (v : TreeView) : bool :=
  match op with
  | ExpandRow idx | CollapseRow idx =>
      bool_decide (rowCount (model v) idx ≠ 0%nat)
        && underExpandedParent (model v) idx
  | ExpandAll | CollapseAll => true
  end.

Definition tracksRecount (v : TreeView) : Prop :=
  mSupressItemExpandStateChanged v = false ∧
  mCollapseCount v = countCollapsed (model v) invalidIndex recursiveDefault.

(** ** Folders, announcements and the mouse press filter *)

(** Number of rows below (and including) [n] that have a child, whatever
    their expanded flag. *)
Fixpoint foldersIn (n : Row) : Z :=
  (b2z (bool_decide (rowChildren n ≠ [])) +
   (fix go (l : list Row) : Z :=
      match l with
      | [] => 0
      | c :: l' => foldersIn c + go l'
      end) (rowChildren n))%Z.

Fixpoint foldersInRows (l : list Row) : Z :=
  match l with
  | [] => 0%Z
  | c :: l' => (foldersIn c + foldersInRows l')%Z
  end.

(** The count carried by the latest [collapseCountChanged] among the
    emitted signals. *)
Fixpoint lastAnnounced (sigs : list Signal) : option Z :=
  match sigs with
  | [] => None
  | sig :: rest =>
      match lastAnnounced rest with
      | Some count => Some count
      | None =>
          match sig with
          | collapseCountChanged count => Some count
          | fileSelected _ => None
          end
      end
  end.

(** What a listener of [collapseCountChanged] last heard is the counter. *)
Definition announced (v : TreeView) : Prop :=
  lastAnnounced (emitted v) = Some (mCollapseCount v).




(** [INT_MAX], the upper end of the [int] the counter is kept in. *)
Definition intMax : Z := 2147483647.

(** The counter is at least the count under expanded parents and exceeds it
    by [slack] at most. *)
Definition coversWithin (slack : Z) (v : TreeView) : Prop :=
  mSupressItemExpandStateChanged v = false ∧
  (collapsedUnderExpanded (model v) ≤ mCollapseCount v
   ≤ collapsedUnderExpanded (model v) + slack)%Z.
(** * Proofs *)

(** ** Facts about the model *)

Lemma collapsedIn_eq n :
  collapsedIn n = (b2z (collapsedFolder n) + collapsedInRows (rowChildren n))%Z.
Proof.
  by destruct n.
Qed.

Lemma rowDepth_eq n : rowDepth n = S (rowsDepth (rowChildren n)).
Proof.
  by destruct n.
Qed.

Lemma rowsDepth_lookup l i n :
  l !! i = Some n → (rowDepth n ≤ rowsDepth l)%nat.
Proof.
  revert i. induction l as [|c l IH]; intros [|i] H; simplify_eq/=; [lia|].
  apply IH in H. lia.
Qed.

Lemma rowsAt_index m parent i :
  rowsAt m (index i parent) =
  match rowsAt m parent !! i with Some n => rowChildren n | None => [] end.
Proof.
  unfold index. revert m. induction parent as [|r p IH]; intros m; simpl.
  - by destruct (m !! i).
  - destruct (m !! r) as [n|]; [apply IH|]. by rewrite lookup_nil.
Qed.

Lemma rowAt_index m parent i :
  rowAt m (index i parent) = rowsAt m parent !! i.
Proof.
  unfold index. revert m. induction parent as [|r p IH]; intros m; simpl.
  - by destruct (m !! i).
  - destruct (m !! r) as [n|]; [|by rewrite lookup_nil].
    rewrite <- IH. by destruct p.
Qed.

Lemma rowsAt_rowAt m idx n :
  rowAt m idx = Some n → rowsAt m idx = rowChildren n.
Proof.
  revert m. induction idx as [|r p IH]; intros m; simpl; [done|].
  destruct (m !! r) as [c|]; [|done]. destruct p as [|r' p].
  - by intros [= ->].
  - apply IH.
Qed.

Lemma rowsAt_depth m idx :
  isValid idx = true → rowsAt m idx ≠ [] →
  (S (rowsDepth (rowsAt m idx)) ≤ rowsDepth m)%nat.
Proof.
  revert m. induction idx as [|r p IH]; intros m Hv Hne; simpl in *; [done|].
  destruct (m !! r) as [c|] eqn:Hc; [|done].
  pose proof (rowsDepth_lookup _ _ _ Hc) as Hd. rewrite rowDepth_eq in Hd.
  destruct p as [|r' p]; simpl in *; [lia|].
  specialize (IH (rowChildren c) eq_refl Hne). simpl in IH. lia.
Qed.

(** ** The traversal computes the counts *)

(** A loop over the row numbers of one level adds up a per-row amount. *)
Lemma fold_rows_sum (body : Z → nat → Z) (G : Row → Z) (l : list Row) :
  ∀ (a : nat) (c : Z),
    (∀ i n c', l !! i = Some n → body c' (a + i)%nat = (c' + G n)%Z) →
    fold_left body (seq a (length l)) c = (c + sumRows G l)%Z.
Proof.
  induction l as [|n l IH]; intros a c Hbody; simpl; [lia|].
  pose proof (Hbody 0%nat n c eq_refl) as H0. rewrite Nat.add_0_r in H0.
  rewrite H0.
  rewrite (IH (S a)); [lia|].
  intros i n' c' Hi. rewrite <- (Hbody (S i) n' c' Hi). f_equal. lia.
Qed.

Lemma collapsedAmong_foldr l :
  collapsedAmong l = sumRows (λ n, b2z (collapsedFolder n)) l.
Proof. induction l as [|n l IH]; simpl; [done|]. by rewrite IH. Qed.

Lemma collapsedInRows_foldr l :
  collapsedInRows l = sumRows collapsedIn l.
Proof. induction l as [|n l IH]; simpl; [done|]. by rewrite IH. Qed.

(** What the loop body tests for row [i] of [parent]. *)
Lemma loop_test m parent i n :
  rowsAt m parent !! i = Some n →
  bool_decide (rowCount m (index i parent) ≠ 0%nat)
    && negb (isExpanded m (index i parent)) = collapsedFolder n.
Proof.
  intros Hn. unfold rowCount, isExpanded, collapsedFolder.
  rewrite rowsAt_index, rowAt_index, Hn. f_equal.
  apply bool_decide_ext. by destruct (rowChildren n).
Qed.

(** One level: any positive fuel is enough. *)
Lemma countCollapsedUpTo_level fuel m parent :
  countCollapsedUpTo (S fuel) m parent false = collapsedAmong (rowsAt m parent).
Proof.
  simpl. change (rowCount m parent) with (length (rowsAt m parent)).
  rewrite collapsedAmong_foldr.
  rewrite (fold_rows_sum _ (λ n, b2z (collapsedFolder n))); [lia|].
  intros i n c' Hn. simpl. rewrite (loop_test _ _ _ _ Hn).
  destruct (collapsedFolder n); simpl; lia.
Qed.

(** All levels: fuel above the depth of the rows below [parent] is enough. *)
Lemma countCollapsedUpTo_all fuel :
  ∀ m parent,
    (rowsDepth (rowsAt m parent) < fuel)%nat →
    countCollapsedUpTo fuel m parent true = collapsedInRows (rowsAt m parent).
Proof.
  induction fuel as [|fuel IH]; intros m parent Hfuel; [lia|].
  simpl. change (rowCount m parent) with (length (rowsAt m parent)).
  rewrite collapsedInRows_foldr.
  rewrite (fold_rows_sum _ collapsedIn); [lia|].
  intros i n c' Hn. simpl. rewrite (loop_test _ _ _ _ Hn).
  unfold recursiveDefault. rewrite IH.
  - rewrite rowsAt_index, Hn, collapsedIn_eq.
    destruct (collapsedFolder n); simpl; lia.
  - rewrite rowsAt_index, Hn.
    pose proof (rowsDepth_lookup _ _ _ Hn) as Hd. rewrite rowDepth_eq in Hd. lia.
Qed.

Lemma rowsAt_depth_le m idx : (rowsDepth (rowsAt m idx) ≤ rowsDepth m)%nat.
Proof.
  destruct idx as [|r p]; [done|].
  destruct (rowsAt m (r :: p)) as [|c l] eqn:E; [simpl; lia|].
  pose proof (rowsAt_depth m (r :: p) eq_refl) as H. rewrite E in H.
  specialize (H ltac:(done)). lia.
Qed.

Lemma countCollapsed_level m parent :
  countCollapsed m parent false = collapsedAmong (rowsAt m parent).
Proof. apply countCollapsedUpTo_level. Qed.

Lemma countCollapsed_all m parent :
  countCollapsed m parent true = collapsedInRows (rowsAt m parent).
Proof.
  apply countCollapsedUpTo_all. pose proof (rowsAt_depth_le m parent). lia.
Qed.

Lemma b2z_nonneg b : (0 ≤ b2z b)%Z.
Proof. destruct b; simpl; lia. Qed.

Lemma collapsedAmong_nonneg l : (0 ≤ collapsedAmong l)%Z.
Proof.
  induction l as [|n l IH]; simpl; [lia|].
  pose proof (b2z_nonneg (collapsedFolder n)). lia.
Qed.

Lemma collapsedIn_nonneg n : (0 ≤ collapsedIn n)%Z.
Proof.
  induction n as [e cs IH] using Row_ind. rewrite collapsedIn_eq. simpl.
  assert (0 ≤ collapsedInRows cs)%Z as Hcs.
  { induction IH as [|c cs' Hc _ IHcs]; simpl; lia. }
  pose proof (b2z_nonneg (collapsedFolder (MkRow e cs))). lia.
Qed.

Lemma collapsedInRows_nonneg l : (0 ≤ collapsedInRows l)%Z.
Proof.
  induction l as [|n l IH]; simpl; [lia|].
  pose proof (collapsedIn_nonneg n). lia.
Qed.

(** ** The bulk operations *)

Lemma deliver_itemExpanded_suppressed idxs v :
  mSupressItemExpandStateChanged v = true →
  deliver itemExpanded idxs v = Some v.
Proof.
  intros Hs. unfold deliver.
  induction idxs as [|idx idxs IH] using rev_ind; [done|].
  rewrite foldl_app, IH. simpl. unfold itemExpanded. by rewrite Hs.
Qed.

Lemma deliver_itemCollapsed_suppressed idxs v :
  mSupressItemExpandStateChanged v = true →
  deliver itemCollapsed idxs v = Some v.
Proof.
  intros Hs. unfold deliver.
  induction idxs as [|idx idxs IH] using rev_ind; [done|].
  rewrite foldl_app, IH. simpl. unfold itemCollapsed. by rewrite Hs.
Qed.

Lemma setCollapseCount_nonneg value v :
  (0 ≤ value)%Z →
  setCollapseCount value v =
  Some (emit (collapseCountChanged value) (withCollapseCount value v)).
Proof.
  intros H. unfold setCollapseCount. by rewrite bool_decide_eq_true_2.
Qed.

Lemma expandAll_eq v :
  expandAll v =
  Some (emit (collapseCountChanged 0)
          (withCollapseCount 0
             (withSupressItemExpandStateChanged false
                (withModel (storeAll true (model v)) v)))).
Proof.
  unfold expandAll, QTreeView_expandAll.
  rewrite deliver_itemExpanded_suppressed by done. simpl.
  by rewrite setCollapseCount_nonneg.
Qed.

Lemma length_storeAll b m : length (storeAll b m) = length m.
Proof. apply length_map. Qed.

Lemma collapseAll_eq v :
  collapseAll v =
  Some (emit (collapseCountChanged (Z.of_nat (length (model v))))
          (withCollapseCount (Z.of_nat (length (model v)))
             (withSupressItemExpandStateChanged false
                (withModel (storeAll false (model v)) v)))).
Proof.
  unfold collapseAll, QTreeView_collapseAll.
  rewrite deliver_itemCollapsed_suppressed by done. simpl.
  unfold rowCount. simpl. rewrite length_storeAll.
  rewrite setCollapseCount_nonneg by lia. done.
Qed.

(** ** Storing one flag *)

Lemma sumRows_insert (G : Row → Z) l r c c' :
  l !! r = Some c →
  sumRows G (<[r:=c']> l) = (sumRows G l - G c + G c')%Z.
Proof.
  revert r. induction l as [|n l IH]; intros [|r] H; simplify_eq/=.
  - unfold sumRows; simpl. lia.
  - specialize (IH r H). unfold sumRows in *; simpl. rewrite IH. lia.
Qed.

Lemma length_storeExpanded m idx b :
  length (storeExpanded m idx b) = length m.
Proof.
  destruct idx as [|r p]; simpl; [done|].
  destruct (m !! r); [apply length_insert|done].
Qed.

Lemma storeExpanded_nil_iff m idx b : storeExpanded m idx b = [] ↔ m = [].
Proof.
  pose proof (length_storeExpanded m idx b) as H.
  split; intros E; [|by subst; destruct idx as [|[|?] ?]].
  rewrite E in H. by destruct m.
Qed.

Lemma rowAt_storeExpanded m idx b n :
  rowAt m idx = Some n →
  rowAt (storeExpanded m idx b) idx = Some (MkRow b (rowChildren n)).
Proof.
  revert m. induction idx as [|r p IH]; intros m; simpl; [done|].
  destruct (m !! r) as [c|] eqn:Hc; [|done].
  rewrite list_lookup_insert_eq by (by eapply lookup_lt_Some).
  destruct p as [|r' p]; [by intros [= ->]|]. apply IH.
Qed.

Lemma rowsAt_storeExpanded m idx b :
  rowsAt (storeExpanded m idx b) idx = rowsAt m idx.
Proof.
  revert m. induction idx as [|r p IH]; intros m; simpl; [done|].
  destruct (m !! r) as [c|] eqn:Hc; [|by rewrite Hc].
  rewrite list_lookup_insert_eq by (by eapply lookup_lt_Some).
  destruct p as [|r' p]; [done|]. apply IH.
Qed.

(** An index with rows below it points at a row, and that row has them. *)
Lemma rowAt_of_rowCount m idx :
  idx ≠ [] → rowCount m idx ≠ 0%nat →
  ∃ n, rowAt m idx = Some n ∧ rowChildren n ≠ [].
Proof.
  unfold rowCount. revert m.
  induction idx as [|r p IH]; intros m Hv Hne; simpl in *; [done|].
  destruct (m !! r) as [c|]; [|done].
  destruct p as [|r' p]; [|by apply IH].
  exists c. split; [done|]. by destruct (rowChildren c).
Qed.

(** The recount after one flag is stored. *)
Lemma collapsedInRows_storeExpanded idx :
  ∀ m n b,
    rowAt m idx = Some n →
    collapsedInRows (storeExpanded m idx b) =
    (collapsedInRows m - b2z (collapsedFolder n)
     + b2z (collapsedFolder (MkRow b (rowChildren n))))%Z.
Proof.
  induction idx as [|r p IH]; intros m n b Hn; simpl in *; [done|].
  destruct (m !! r) as [c|] eqn:Hc; [|done].
  rewrite collapsedInRows_foldr, (sumRows_insert _ _ _ c) by done.
  rewrite <- collapsedInRows_foldr, !collapsedIn_eq.
  destruct p as [|r' p]; cbn [rowChildren rowExpanded].
  - injection Hn as ->. lia.
  - rewrite (IH _ _ _ Hn).
    assert (collapsedFolder
              (MkRow (rowExpanded c) (storeExpanded (rowChildren c) (r' :: p) b))
            = collapsedFolder c) as ->.
    { unfold collapsedFolder; cbn [rowChildren rowExpanded]. f_equal.
      apply bool_decide_ext.
      by rewrite storeExpanded_nil_iff. }
    lia.
Qed.

(** ** Single rows: what the slots compute *)

Lemma QTreeView_expand_eq v idx n :
  mSupressItemExpandStateChanged v = false →
  rowAt (model v) idx = Some n → rowExpanded n = false →
  QTreeView_expand idx v =
  setCollapseCount (mCollapseCount v - 1 + collapsedAmong (rowChildren n))%Z
    (withModel (storeExpanded (model v) idx true) v).
Proof.
  intros Hs Hn He. unfold QTreeView_expand, itemExpanded. rewrite Hn, He.
  simpl. rewrite Hs, countCollapsed_level, rowsAt_storeExpanded.
  by rewrite (rowsAt_rowAt _ _ _ Hn).
Qed.

Lemma QTreeView_collapse_eq v idx n :
  mSupressItemExpandStateChanged v = false →
  rowAt (model v) idx = Some n → rowExpanded n = true →
  QTreeView_collapse idx v =
  setCollapseCount (mCollapseCount v + 1 - collapsedAmong (rowChildren n))%Z
    (withModel (storeExpanded (model v) idx false) v).
Proof.
  intros Hs Hn He. unfold QTreeView_collapse, itemCollapsed. rewrite Hn, He.
  simpl. rewrite Hs, countCollapsed_level, rowsAt_storeExpanded.
  by rewrite (rowsAt_rowAt _ _ _ Hn).
Qed.

Lemma setCollapseCount_Some value v v' :
  setCollapseCount value v = Some v' →
  (0 ≤ value)%Z ∧ mCollapseCount v' = value ∧ model v' = model v
  ∧ mSupressItemExpandStateChanged v' = mSupressItemExpandStateChanged v.
Proof.
  unfold setCollapseCount. case_bool_decide; simpl; [|done].
  by intros [= <-].
Qed.

Lemma collapsedFolder_flag b cs :
  collapsedFolder (MkRow b cs) = bool_decide (cs ≠ []) && negb b.
Proof. done. Qed.

(** ** The count under expanded parents *)

Lemma collapsedUnderExpandedIn_eq pe n :
  collapsedUnderExpandedIn pe n =
  (b2z (pe && collapsedFolder n)
   + collapsedUnderExpandedRows (rowExpanded n) (rowChildren n))%Z.
Proof.
  destruct n as [e cs]; simpl. f_equal.
  induction cs as [|c cs IH]; simpl; [done|]. by rewrite IH.
Qed.

Lemma collapsedUnderExpandedRows_sum pe l :
  collapsedUnderExpandedRows pe l = sumRows (collapsedUnderExpandedIn pe) l.
Proof. induction l as [|n l IH]; simpl; [done|]. by rewrite IH. Qed.

Lemma collapsedUnderExpandedRows_split pe l :
  collapsedUnderExpandedRows pe l =
  ((if pe then collapsedAmong l else 0)
   + collapsedUnderExpandedRows false l)%Z.
Proof.
  induction l as [|n l IH]; simpl; [by destruct pe|].
  rewrite IH, !collapsedUnderExpandedIn_eq. destruct pe; simpl; lia.
Qed.

Lemma collapsedUnderExpandedIn_nonneg n : ∀ pe,
  (0 ≤ collapsedUnderExpandedIn pe n)%Z.
Proof.
  induction n as [e cs IH] using Row_ind. intros pe.
  rewrite collapsedUnderExpandedIn_eq. simpl.
  assert (0 ≤ collapsedUnderExpandedRows e cs)%Z as Hcs.
  { induction IH as [|c cs' Hc _ IHcs]; simpl; [lia|].
    specialize (Hc e). lia. }
  pose proof (b2z_nonneg (pe && collapsedFolder (MkRow e cs))). lia.
Qed.

Lemma collapsedUnderExpandedRows_nonneg pe l :
  (0 ≤ collapsedUnderExpandedRows pe l)%Z.
Proof.
  induction l as [|n l IH]; simpl; [lia|].
  pose proof (collapsedUnderExpandedIn_nonneg n pe). lia.
Qed.

Lemma collapsedUnderExpanded_storeAll_true l : ∀ pe,
  collapsedUnderExpandedRows pe (storeAll true l) = 0%Z.
Proof.
  assert (∀ n pe, collapsedUnderExpandedIn pe (storeAllIn true n) = 0%Z) as Hn.
  { induction n as [e cs IH] using Row_ind. intros pe.
    rewrite collapsedUnderExpandedIn_eq. simpl.
    rewrite collapsedFolder_flag, andb_false_r, andb_false_r. simpl.
    induction IH as [|c cs' Hc _ IHcs]; simpl; [done|].
    by rewrite Hc, IHcs. }
  unfold storeAll.
  induction l as [|n l IH]; intros pe;
    cbn [List.map collapsedUnderExpandedRows]; [done|].
  by rewrite Hn, IH.
Qed.

Lemma collapsedUnderExpanded_storeAll_false l :
  collapsedUnderExpandedRows false (storeAll false l) = 0%Z.
Proof.
  assert (∀ n, collapsedUnderExpandedIn false (storeAllIn false n) = 0%Z)
    as Hn.
  { induction n as [e cs IH] using Row_ind.
    rewrite collapsedUnderExpandedIn_eq. simpl.
    induction IH as [|c cs' Hc _ IHcs]; simpl; [done|].
    by rewrite Hc, IHcs. }
  unfold storeAll.
  induction l as [|n l IH]; cbn [List.map collapsedUnderExpandedRows]; [done|].
  by rewrite Hn, IH.
Qed.

Lemma collapsedAmong_storeAll_false l :
  forallb (λ n, bool_decide (rowChildren n ≠ [])) l = true →
  collapsedAmong (storeAll false l) = Z.of_nat (length l).
Proof.
  unfold storeAll.
  induction l as [|n l IH]; cbn [List.map collapsedAmong forallb length];
    [done|].
  intros [Hn Hl]%andb_true_iff. rewrite (IH Hl).
  destruct n as [e cs]; cbn [storeAllIn rowChildren] in *.
  rewrite collapsedFolder_flag.
  apply bool_decide_eq_true_1 in Hn.
  rewrite bool_decide_eq_true_2; [simpl; lia|].
  by destruct cs.
Qed.

Lemma underExpandedParentOr_top pe m r :
  underExpandedParentOr pe m [r] = pe.
Proof. done. Qed.

Lemma underExpandedParentOr_below pe m r r' p :
  underExpandedParentOr pe m (r :: r' :: p) =
  match m !! r with
  | Some c =>
      underExpandedParentOr (rowExpanded c) (rowChildren c) (r' :: p)
  | None => false
  end.
Proof.
  unfold underExpandedParentOr, parentOf, isExpanded.
  change (removelast (r :: r' :: p)) with (r :: removelast (r' :: p)).
  simpl isValid. cbn [rowAt]. destruct (m !! r) as [c|]; [|done].
  by destruct p.
Qed.

(** The count after one flag is stored for a row that has a child and
    whose parent is expanded. *)
Lemma collapsedUnderExpandedRows_storeExpanded idx :
  ∀ m pe n b,
    rowAt m idx = Some n →
    rowChildren n ≠ [] →
    underExpandedParentOr pe m idx = true →
    collapsedUnderExpandedRows pe (storeExpanded m idx b) =
    (collapsedUnderExpandedRows pe m
     - (b2z (negb (rowExpanded n))
        + if rowExpanded n then collapsedAmong (rowChildren n) else 0)
     + (b2z (negb b) + if b then collapsedAmong (rowChildren n) else 0))%Z.
Proof.
  induction idx as [|r p IH]; intros m pe n b Hn Hcs Hsh; [done|].
  cbn [rowAt storeExpanded] in *.
  destruct (m !! r) as [c|] eqn:Hc; [|done].
  rewrite collapsedUnderExpandedRows_sum, (sumRows_insert _ _ _ c) by done.
  rewrite <- collapsedUnderExpandedRows_sum, !collapsedUnderExpandedIn_eq.
  destruct p as [|r' p]; cbn [rowChildren rowExpanded].
  - injection Hn as ->. rewrite underExpandedParentOr_top in Hsh. subst pe.
    rewrite (collapsedUnderExpandedRows_split b),
      (collapsedUnderExpandedRows_split (rowExpanded n)).
    rewrite collapsedFolder_flag. unfold collapsedFolder.
    rewrite bool_decide_eq_true_2 by done.
    destruct b, (rowExpanded n); simpl; lia.
  - rewrite underExpandedParentOr_below, Hc in Hsh.
    rewrite (IH _ _ _ _ Hn Hcs Hsh).
    assert (collapsedFolder
              (MkRow (rowExpanded c) (storeExpanded (rowChildren c) (r' :: p) b))
            = collapsedFolder c) as ->.
    { unfold collapsedFolder; cbn [rowChildren rowExpanded]. f_equal.
      apply bool_decide_ext. by rewrite storeExpanded_nil_iff. }
    lia.
Qed.

Lemma underExpandedParent_or m idx :
  underExpandedParent m idx = underExpandedParentOr true m idx.
Proof.
  unfold underExpandedParent, underExpandedParentOr.
  by destruct (isValid (parentOf idx)).
Qed.

(** ** One followed operation keeps the counter on the count *)

(** Expanding or collapsing a row that has a child and sits under an
    expanded parent moves the counter and the count by the same amount.
    Both proofs run alike: find the row, rewrite the slot, and compare with
    the count after the flag is stored. *)
Local Ltac row_offset v idx b slot_eq :=
  let n := fresh "n" in
  let Hn := fresh "Hn" in
  let Hne := fresh "Hne" in
  let He := fresh "He" in
  let Hst := fresh "Hst" in
  let Hnn := fresh "Hnn" in
  intros Hs Hc Hrows Hsh;
  destruct (decide (idx = [])) as [->|Hidx]; [by exists v|];
  destruct (rowAt_of_rowCount (model v) idx Hidx Hrows) as (n & Hn & Hne);
  destruct (rowExpanded n) eqn:He;
  first
    [ by (exists v; unfold QTreeView_expand, QTreeView_collapse;
          rewrite Hn, He)
    | rewrite (slot_eq _ _ _ Hs Hn He);
      rewrite underExpandedParent_or in Hsh;
      pose proof (collapsedUnderExpandedRows_storeExpanded idx (model v) true
                    n b Hn Hne Hsh) as Hst;
      rewrite He in Hst; simpl in Hst;
      pose proof (collapsedUnderExpandedRows_nonneg true
                    (storeExpanded (model v) idx b)) as Hnn;
      unfold collapsedUnderExpanded in *;
      rewrite setCollapseCount_nonneg by lia;
      eexists; split; [done|]; split; [done|]; simpl; lia ].

Lemma expand_row_offset v idx :
  mSupressItemExpandStateChanged v = false →
  (collapsedUnderExpanded (model v) ≤ mCollapseCount v)%Z →
  rowCount (model v) idx ≠ 0%nat →
  underExpandedParent (model v) idx = true →
  ∃ v', QTreeView_expand idx v = Some v' ∧
        mSupressItemExpandStateChanged v' = false ∧
        (mCollapseCount v' - collapsedUnderExpanded (model v')
         = mCollapseCount v - collapsedUnderExpanded (model v))%Z.
Proof. row_offset v idx true QTreeView_expand_eq. Qed.

Lemma collapse_row_offset v idx :
  mSupressItemExpandStateChanged v = false →
  (collapsedUnderExpanded (model v) ≤ mCollapseCount v)%Z →
  rowCount (model v) idx ≠ 0%nat →
  underExpandedParent (model v) idx = true →
  ∃ v', QTreeView_collapse idx v = Some v' ∧
        mSupressItemExpandStateChanged v' = false ∧
        (mCollapseCount v' - collapsedUnderExpanded (model v')
         = mCollapseCount v - collapsedUnderExpanded (model v))%Z.
Proof. row_offset v idx false QTreeView_collapse_eq. Qed.

Lemma collapsedAmong_le_length l :
  (collapsedAmong l ≤ Z.of_nat (length l))%Z.
Proof.
  induction l as [|n l IH]; simpl; [lia|].
  destruct (collapsedFolder n); simpl; lia.
Qed.

Lemma perform_followed_tracks op v :
  tracksUnderExpanded v →
  followed op v = true →
  ∃ v', perform op v = Some v' ∧ tracksUnderExpanded v'.
Proof.
  intros [Hs Hc] Hf. destruct op as [idx|idx| |]; simpl in *.
  - apply andb_true_iff in Hf as [Hrows%bool_decide_eq_true_1 Hsh].
    destruct (expand_row_offset v idx) as (v' & Hv' & Hs' & Hc');
      [done|lia|done|done|].
    exists v'. split; [done|]. split; [done|]. lia.
  - apply andb_true_iff in Hf as [Hrows%bool_decide_eq_true_1 Hsh].
    destruct (collapse_row_offset v idx) as (v' & Hv' & Hs' & Hc');
      [done|lia|done|done|].
    exists v'. split; [done|]. split; [done|]. lia.
  - rewrite expandAll_eq. eexists; split; [done|]. split; [done|].
    unfold collapsedUnderExpanded; simpl.
    by rewrite collapsedUnderExpanded_storeAll_true.
  - rewrite collapseAll_eq. eexists; split; [done|]. split; [done|].
    unfold collapsedUnderExpanded; simpl.
    rewrite collapsedUnderExpandedRows_split.
    rewrite collapsedUnderExpanded_storeAll_false.
    rewrite collapsedAmong_storeAll_false by done. lia.
Qed.

Lemma perform_followedRow_covers op v :
  coversUnderExpanded v →
  followedRow op v = true →
  ∃ v', perform op v = Some v' ∧ coversUnderExpanded v'.
Proof.
  intros [Hs Hc] Hf. destruct op as [idx|idx| |]; simpl in *.
  - apply andb_true_iff in Hf as [Hrows%bool_decide_eq_true_1 Hsh].
    destruct (expand_row_offset v idx) as (v' & Hv' & Hs' & Hc');
      [done..|].
    exists v'. split; [done|]. split; [done|]. lia.
  - apply andb_true_iff in Hf as [Hrows%bool_decide_eq_true_1 Hsh].
    destruct (collapse_row_offset v idx) as (v' & Hv' & Hs' & Hc');
      [done..|].
    exists v'. split; [done|]. split; [done|]. lia.
  - rewrite expandAll_eq. eexists; split; [done|]. split; [done|].
    unfold collapsedUnderExpanded; simpl.
    by rewrite collapsedUnderExpanded_storeAll_true.
  - rewrite collapseAll_eq. eexists; split; [done|]. split; [done|].
    unfold collapsedUnderExpanded; simpl.
    rewrite collapsedUnderExpandedRows_split.
    rewrite collapsedUnderExpanded_storeAll_false.
    pose proof (collapsedAmong_le_length (storeAll false (model v))) as H.
    rewrite length_storeAll in H. lia.
Qed.

Lemma collapsedUnderExpandedRows_le l : ∀ pe,
  (collapsedUnderExpandedRows pe l ≤ collapsedInRows l)%Z.
Proof.
  assert (∀ n pe, collapsedUnderExpandedIn pe n ≤ collapsedIn n)%Z as Hn.
  { induction n as [e cs IH] using Row_ind. intros pe.
    rewrite collapsedUnderExpandedIn_eq, collapsedIn_eq. simpl.
    assert (collapsedUnderExpandedRows e cs ≤ collapsedInRows cs)%Z as Hcs.
    { induction IH as [|c cs' Hc _ IHcs]; simpl; [lia|].
      specialize (Hc e). lia. }
    destruct pe, (collapsedFolder (MkRow e cs)); simpl; lia. }
  induction l as [|n l IH]; intros pe; simpl; [lia|].
  specialize (Hn n pe). specialize (IH pe). lia.
Qed.

(** * The properties of the view *)

(** ** countCollapsed *)

(** C2 (as amended): for every model and every parent index, the recursive
    [countCollapsed] visits every row below [parent], whether it is shown or
    sits inside a collapsed subtree, and returns the number of those rows
    that have at least one child and are not expanded. *)
Theorem countCollapsed_counts_every_row (m : list Row) (parent : QModelIndex) :
  countCollapsed m parent true = collapsedInRows (rowsAt m parent).
Proof. apply countCollapsed_all. Qed.

(** C2 (as stated) fails: below a collapsed top-level row sits a collapsed
    row with a child; the rows that are shown hold one collapsed folder, and
    [countCollapsed] returns two. *)
Lemma countCollapsed_counts_hidden_row :
  let m := [MkRow false [MkRow false [MkRow false []]]] in
  shownCollapsedInRows (rowsAt m invalidIndex) = 1%Z ∧
  countCollapsed m invalidIndex true = 2%Z ∧
  countCollapsed m invalidIndex true
    ≠ shownCollapsedInRows (rowsAt m invalidIndex).
Proof. vm_compute. repeat split; congruence. Qed.

(** ** Single-row updates against the recount *)

Lemma collapsedAmong_le_all l : (collapsedAmong l ≤ collapsedInRows l)%Z.
Proof.
  induction l as [|n l IH]; simpl; [lia|]. rewrite collapsedIn_eq.
  pose proof (collapsedInRows_nonneg (rowChildren n)). lia.
Qed.

Lemma collapsedIn_lookup l i n :
  l !! i = Some n → (collapsedIn n ≤ collapsedInRows l)%Z.
Proof.
  revert i. induction l as [|c l IH]; intros [|i] H; simplify_eq/=.
  - pose proof (collapsedInRows_nonneg l). lia.
  - apply IH in H. pose proof (collapsedIn_nonneg c). lia.
Qed.

Lemma collapsedIn_rowAt idx : ∀ m n,
  rowAt m idx = Some n → (collapsedIn n ≤ collapsedInRows m)%Z.
Proof.
  induction idx as [|r p IH]; intros m n Hn; simpl in *; [done|].
  destruct (m !! r) as [c|] eqn:Hc; [|done].
  pose proof (collapsedIn_lookup _ _ _ Hc) as Hle.
  destruct p as [|r' p]; [by injection Hn as <-|].
  apply IH in Hn. rewrite collapsedIn_eq in Hle.
  pose proof (b2z_nonneg (collapsedFolder c)). lia.
Qed.

(** By how much the handlers miss the recount.  In a state whose counter
    equals the recount, expanding a row that has a child leaves the counter
    above the recount of the new state by the number of its direct children
    that have a child and are not expanded, and collapsing it leaves the
    counter below the recount by that number: the recount has counted these
    children already, and goes on counting them while they are hidden. *)
Lemma single_row_update_misses_recount
    (v : TreeView) (idx : QModelIndex) (n : Row) :
  tracksRecount v →
  rowAt (model v) idx = Some n →
  rowChildren n ≠ [] →
  let d := countCollapsed (model v) idx false in
  let recount (w : TreeView) :=
    countCollapsed (model w) parentDefault recursiveDefault in
  (rowExpanded n = false →
   ∃ v', QTreeView_expand idx v = Some v' ∧
         mCollapseCount v' = (recount v' + d)%Z) ∧
  (rowExpanded n = true →
   ∃ v', QTreeView_collapse idx v = Some v' ∧
         mCollapseCount v' = (recount v' - d)%Z).
Proof.
  intros [Hs Hc] Hn Hcs d recount. subst d recount.
  unfold recursiveDefault, parentDefault in *.
  rewrite countCollapsed_all in Hc.
  rewrite countCollapsed_level, (rowsAt_rowAt _ _ _ Hn). simpl in Hc.
  pose proof (collapsedAmong_nonneg (rowChildren n)) as Hd.
  pose proof (collapsedAmong_le_all (rowChildren n)) as Hd'.
  pose proof (collapsedIn_rowAt _ _ _ Hn) as Hle.
  rewrite collapsedIn_eq in Hle.
  pose proof (collapsedInRows_storeExpanded idx (model v) n) as Hst.
  destruct n as [e cs]; simpl in *.
  remember (collapsedAmong cs) as k eqn:Ek.
  remember (collapsedInRows cs) as below eqn:Eb.
  rewrite collapsedFolder_flag, bool_decide_eq_true_2 in Hle by done.
  split; intros ->.
  - rewrite (QTreeView_expand_eq _ _ _ Hs Hn eq_refl); simpl.
    rewrite <- Ek.
    specialize (Hst true Hn).
    rewrite !collapsedFolder_flag, !bool_decide_eq_true_2 in Hst by done.
    simpl in Hst, Hle.
    pose proof (collapsedInRows_nonneg
                  (storeExpanded (model v) idx true)).
    rewrite setCollapseCount_nonneg by lia. eexists; split; [done|].
    rewrite countCollapsed_all. simpl. lia.
  - rewrite (QTreeView_collapse_eq _ _ _ Hs Hn eq_refl); simpl.
    rewrite <- Ek.
    specialize (Hst false Hn).
    rewrite !collapsedFolder_flag, !bool_decide_eq_true_2 in Hst by done.
    simpl in Hst, Hle.
    rewrite setCollapseCount_nonneg by lia. eexists; split; [done|].
    rewrite countCollapsed_all. simpl. lia.
Qed.

(** C3 fails on the code: a folder inside a folder, both collapsed.  The
    recount slot sets the counter to 2; expanding the outer folder makes
    [itemExpanded] set it to 2 - 1 + 1 = 2, while one folder is collapsed
    and the recount of the new state is 1. *)
Theorem expand_differs_from_recount :
  let m := [MkRow false [MkRow false [MkRow false []]]] in
  let v := MkTreeView m [] [] [] 2 false false [] in
  mCollapseCount v = countCollapsed (model v) invalidIndex recursiveDefault ∧
  ∃ v', QTreeView_expand [0%nat] v = Some v' ∧
        mCollapseCount v' = 2%Z ∧
        countCollapsed (model v') invalidIndex recursiveDefault = 1%Z.
Proof. split; [reflexivity|]. eexists. split; [reflexivity|]. by vm_compute. Qed.

(** ** collapseAll *)

(** C9: for every model, [collapseAll] ends with the counter at the number of
    top-level rows, [model()->rowCount()], with every expanded flag
    cleared; the value is not a recount: a single top-level file makes the
    counter 1 while no row of the model has a child. *)
Theorem collapseAll_counts_top_level_rows :
  (∀ v : TreeView,
     ∃ v', collapseAll v = Some v' ∧
           model v' = storeAll false (model v) ∧
           mCollapseCount v' = Z.of_nat (rowCount (model v') invalidIndex) ∧
           mCollapseCount v' = Z.of_nat (rowCount (model v) invalidIndex)) ∧
  (∃ v v', collapseAll v = Some v' ∧
           mCollapseCount v' = 1%Z ∧
           countCollapsed (model v') invalidIndex recursiveDefault = 0%Z).
Proof.
  split.
  - intros v. rewrite collapseAll_eq. eexists; split; [done|]. simpl.
    unfold rowCount; simpl. by rewrite length_storeAll.
  - exists (MkTreeView [MkRow false []] [] [] [] 0 false false []).
    eexists. split; [reflexivity|]. by vm_compute.
Qed.

(** ** The slot of dataChanged *)

(** C10: the slot of [dataChanged] fails exactly when [topLeft] differs from
    [bottomRight] or [roles] is empty; otherwise it looks at the first role
    only: for [Qt::CheckStateRole] the counter is set to the recount of the
    whole model and [collapseCountChanged] is emitted, for any other role
    the state is returned as it was. *)
Theorem updateCollapseCount_dataChanged_spec
    (topLeft bottomRight : QModelIndex) (roles : list Z) (v : TreeView) :
  match updateCollapseCount_dataChanged topLeft bottomRight roles v with
  | None => topLeft ≠ bottomRight ∨ roles = []
  | Some v' =>
      topLeft = bottomRight ∧
      ∃ role rest, roles = role :: rest ∧
        if bool_decide (role = CheckStateRole) then
          let recount := collapsedInRows (model v) in
          countCollapsed (model v) invalidIndex recursiveDefault = recount ∧
          v' = emit (collapseCountChanged recount)
                 (withCollapseCount recount v)
        else v' = v
  end.
Proof.
  unfold updateCollapseCount_dataChanged.
  destruct (decide (topLeft = bottomRight)) as [->|Hne].
  - rewrite bool_decide_eq_true_2 by done. simpl.
    destruct roles as [|role rest]; simpl; [by right|].
    destruct (decide (role = CheckStateRole)) as [->|Hr].
    + rewrite bool_decide_eq_false_2 by (intros H; by apply H).
      unfold recursiveDefault, parentDefault. rewrite countCollapsed_all. simpl.
      rewrite setCollapseCount_nonneg by apply collapsedInRows_nonneg.
      split; [done|]. exists CheckStateRole, rest. split; [done|].
      by rewrite bool_decide_eq_true_2.
    + rewrite bool_decide_eq_true_2 by done.
      split; [done|]. exists role, rest. split; [done|].
      by rewrite bool_decide_eq_false_2.
  - rewrite bool_decide_eq_false_2 by done. simpl. by left.
Qed.

(** ** Selection *)

Lemma handleSelectionChange_eq selected deselected v :
  let announced :=
    match selectedIndexes v with
    | [] => v
    | [index] => emit (fileSelected index) v
    | _ :: _ :: _ => emit (fileSelected invalidIndex) v
    end in
  handleSelectionChange selected deselected v = announced ∨
  ∃ parent,
    handleSelectionChange selected deselected v
    = setCurrentIndex parent announced ∨
    handleSelectionChange selected deselected v
    = setRootIndex invalidIndex (setCurrentIndex parent announced).
Proof.
  intros announced. unfold handleSelectionChange. cbv zeta.
  assert ((if bool_decide (0 < length (selectedIndexes v))%nat
           then emit (fileSelected
                        (if bool_decide (length (selectedIndexes v) = 1%nat)
                         then default invalidIndex (head (selectedIndexes v))
                         else invalidIndex)) v
           else v) = announced) as ->.
  { subst announced. by destruct (selectedIndexes v) as [|i [|j sel]]. }
  destruct (suppressDeselectionHandling announced); [by left|].
  destruct (_ && _); [|by left].
  right. eexists. destruct (negb _); [by right|by left].
Qed.

Lemma handleSelectionChange_flags selected deselected v :
  mSupressItemExpandStateChanged (handleSelectionChange selected deselected v)
  = mSupressItemExpandStateChanged v ∧
  suppressDeselectionHandling (handleSelectionChange selected deselected v)
  = suppressDeselectionHandling v.
Proof.
  destruct (handleSelectionChange_eq selected deselected v)
    as [->|[parent [->| ->]]];
    by destruct (selectedIndexes v) as [|i [|j sel]].
Qed.

(** C7: [handleSelectionChange] emits nothing when the selection model holds
    no index, [fileSelected] with the index when it holds exactly one, and
    [fileSelected] with the invalid index when it holds more. *)
Theorem handleSelectionChange_emits
    (selected deselected : list QModelIndex) (v : TreeView) :
  emitted (handleSelectionChange selected deselected v) =
  emitted v ++
  match selectedIndexes v with
  | [] => []
  | [index] => [fileSelected index]
  | _ :: _ :: _ => [fileSelected invalidIndex]
  end.
Proof.
  destruct (handleSelectionChange_eq selected deselected v)
    as [->|[parent [->| ->]]];
    destruct (selectedIndexes v) as [|i [|j sel]]; simpl;
    by rewrite ?app_nil_r.
Qed.


(** ** The suppression flags *)


(** Between calls both flags are false: the other handlers leave them so. *)
Lemma flags_stay_false (v : TreeView) :
  mSupressItemExpandStateChanged v = false →
  suppressDeselectionHandling v = false →
  let clear (w : TreeView) :=
    mSupressItemExpandStateChanged w = false ∧
    suppressDeselectionHandling w = false in
  (∀ value w, setCollapseCount value v = Some w → clear w) ∧
  (∀ idx w, itemExpanded idx v = Some w ∨ itemCollapsed idx v = Some w →
            clear w) ∧
  (∀ selected deselected, clear (handleSelectionChange selected deselected v)).
Proof.
  intros Hs Hd clear. subst clear.
  assert (∀ value w, setCollapseCount value v = Some w →
            mSupressItemExpandStateChanged w = false ∧
            suppressDeselectionHandling w = false) as Hset.
  { intros value w H. unfold setCollapseCount in H.
    case_bool_decide; simpl in H; [|done]. by injection H as <-. }
  split; [done|]. split.
  - intros idx w. unfold itemExpanded, itemCollapsed. rewrite Hs.
    intros [H|H]; by apply (Hset _ _ H).
  - intros selected deselected.
    by destruct (handleSelectionChange_flags selected deselected v)
      as [-> ->].
Qed.



(** ** Discard *)

(** C5: with a parent repository view in place, the slot of the Discard
    button calls the model's [discard] once; when that call fails, one log
    entry is added to the parent view and one error is shown through it,
    under that entry; when it succeeds, no log entry is added and no error
    is shown. *)
Theorem discardClicked_reports_failure_once
    (w : Widget) (m : DiffTreeModel) (sIndex : QModelIndex) (view : RepoView) :
  parentView w = Some view →
  let trace := (discardClicked w m sIndex).1 in
  countEffects isModelDiscard trace = 1%nat ∧
  if discardResult m sIndex then
    countEffects isAddLogEntry trace = 0%nat ∧
    countEffects isShowError trace = 0%nat
  else
    countEffects isAddLogEntry trace = 1%nat ∧
    countEffects isShowError trace = 1%nat ∧
    ∃ entry name,
      trace = [ModelDiscard sIndex; AddLogEntry view entry;
               ShowError view entry "discard" name].
Proof.
  intros Hview. unfold discardClicked. rewrite Hview.
  destruct (discardResult m sIndex); simpl; [done|].
  repeat split; eauto.
Qed.

Lemma discardClicked_reports_failure_once_witness :
  let m := MkDiffTreeModel (λ _, false) (λ _, 0%Z) (λ _, "a.txt") in
  let w := MkWidget None (Some (MkRepoView "repo")) in
  let trace := (discardClicked w m [0%nat]).1 in
  countEffects isModelDiscard trace = 1%nat ∧
  countEffects isAddLogEntry trace = 1%nat ∧
  countEffects isShowError trace = 1%nat.
Proof.
  intros m w trace.
  destruct (discardClicked_reports_failure_once w m [0%nat]
              (MkRepoView "repo") eq_refl) as (H1 & H2 & H3 & _).
  exact (conj H1 (conj H2 H3)).
Defined.

(** C8: when the view's model is a sort/filter proxy over a
    [DiffTreeModel] and a parent repository view exists, [discard] passes
    both of its casts and builds the dialog, and the slot of the Discard
    button runs to its end; the casts are not handled otherwise: without
    such a model [discard] stops at an assertion. *)
Theorem discard_assertions_hold
    (w : Widget) (d : DiffTreeModel) (f : QModelIndex → QModelIndex)
    (view : RepoView) (index : QModelIndex) :
  itemModel w = Some (SortFilterProxy (Some (DiffTreeSource d)) f) →
  parentView w = Some view →
  ∃ dialog,
    discard w index = Some dialog ∧
    capturedModel dialog = d ∧ capturedIndex dialog = f index ∧
    (discardClicked w (capturedModel dialog) (capturedIndex dialog)).2 = true.
Proof.
  intros Hm Hv. unfold discard. rewrite Hm. simpl.
  eexists. split; [done|]. simpl. repeat split.
  unfold discardClicked. rewrite Hv. by destruct (discardResult _ _).
Qed.

Lemma discard_assertions_hold_witness :
  let d := MkDiffTreeModel (λ _, false) (λ _, 0%Z) (λ _, "a.txt") in
  let w := MkWidget (Some (SortFilterProxy (Some (DiffTreeSource d)) id))
             (Some (MkRepoView "repo")) in
  ∃ dialog,
    discard w [0%nat] = Some dialog ∧
    capturedModel dialog = d ∧ capturedIndex dialog = [0%nat] ∧
    (discardClicked w (capturedModel dialog) (capturedIndex dialog)).2 = true.
Proof.
  intros d w.
  exact (discard_assertions_hold w d id (MkRepoView "repo") [0%nat]
           eq_refl eq_refl).
Defined.

(** The assertions of [discard] do stop it: no proxy, or a proxy over
    another source model. *)
Lemma discard_assertion_fails (w : Widget) (index : QModelIndex) :
  discard w index = None ↔
  asSortFilterProxy (itemModel w) ≫= (λ p, asDiffTreeModel p.1) = None.
Proof.
  unfold discard.
  destruct (asSortFilterProxy (itemModel w)) as [[src f]|]; simpl; [|done].
  by destruct (asDiffTreeModel src).
Qed.

(** ** The assertion of setCollapseCount *)

(** C4 fails on the code: a folder holding one file.  [collapseAll] sets the
    counter to 1, expanding the folder makes it 0, and when [expanded]
    arrives for the file (a row without children), [itemExpanded] passes
    0 - 1 + 0 = -1 to [setCollapseCount], whose assertion fails.  The same
    happens without a childless row when [expanded] arrives for a folder
    inside a collapsed folder and then for the outer one. *)
Theorem itemExpanded_passes_negative_count :
  (let v0 := MkTreeView [MkRow false [MkRow false []]] [] [] [] 0
               false false [] in
   ∃ v1 v2,
     collapseAll v0 = Some v1 ∧ mCollapseCount v1 = 1%Z ∧
     QTreeView_expand [0%nat] v1 = Some v2 ∧ mCollapseCount v2 = 0%Z ∧
     (mCollapseCount v2 - 1
      + countCollapsed (storeExpanded (model v2) [0%nat; 0%nat] true)
          [0%nat; 0%nat] false = -1)%Z ∧
     QTreeView_expand [0%nat; 0%nat] v2 = None ∧
     performAll [CollapseAll; ExpandRow [0%nat]; ExpandRow [0%nat; 0%nat]] v0
     = None) ∧
  (let v0 := MkTreeView [MkRow false [MkRow false [MkRow false []]]]
               [] [] [] 0 false false [] in
   ∃ v1 v2,
     collapseAll v0 = Some v1 ∧ mCollapseCount v1 = 1%Z ∧
     QTreeView_expand [0%nat; 0%nat] v1 = Some v2 ∧ mCollapseCount v2 = 0%Z ∧
     QTreeView_expand [0%nat] v2 = None).
Proof.
  split; do 2 eexists; (split; [reflexivity|]); (split; [reflexivity|]);
    (split; [reflexivity|]); by vm_compute.
Qed.

(** Where the assertion does hold, overflow of the [int] aside: as long as the counter is at least the
    count under expanded parents (it is after [expandAll], [collapseAll]
    and either recount), expanding or collapsing rows that have a child and
    sit under an expanded parent, and the two bulk operations, never fail
    it. *)
Theorem assertion_holds_for_followed_rows
    (ops : list Operation) (v : TreeView) :
  coversUnderExpanded v →
  allAlong followedRow ops v = true →
  ∃ v', performAll ops v = Some v' ∧ coversUnderExpanded v'.
Proof.
  revert v. induction ops as [|op ops IH]; intros v Ht Hf; simpl in *.
  - by exists v.
  - apply andb_true_iff in Hf as [Hop Hrest].
    destruct (perform_followedRow_covers op v Ht Hop) as (v1 & Hv1 & Ht1).
    rewrite Hv1 in *. simpl. by apply IH.
Qed.

Lemma recount_covers (v v' : TreeView) :
  mSupressItemExpandStateChanged v = false →
  updateCollapseCount_rowsInserted invalidIndex 0 0 v = Some v' →
  coversUnderExpanded v'.
Proof.
  intros Hs Hv'. unfold updateCollapseCount_rowsInserted in Hv'.
  apply setCollapseCount_Some in Hv' as (_ & Hc & Hm & Hs').
  split; [congruence|]. rewrite Hc, Hm.
  unfold recursiveDefault, parentDefault. rewrite countCollapsed_all.
  apply collapsedUnderExpandedRows_le.
Qed.

(** ** The counter over sequences of operations *)

(** What the single-row handlers do keep up to date.  From a state whose
    counter equals the number of rows that have a child, are not expanded
    and sit under an expanded parent (top-level rows included), every
    sequence of followed operations leaves the counter equal to that number,
    none of them failing an assertion. *)
Lemma counter_tracks_rows_under_expanded_parents
    (ops : list Operation) (v : TreeView) :
  tracksUnderExpanded v →
  allAlong followed ops v = true →
  ∃ v', performAll ops v = Some v' ∧ tracksUnderExpanded v'.
Proof.
  revert v. induction ops as [|op ops IH]; intros v Ht Hf; simpl in *.
  - by exists v.
  - apply andb_true_iff in Hf as [Hop Hrest].
    destruct (perform_followed_tracks op v Ht Hop) as (v1 & Hv1 & Ht1).
    rewrite Hv1 in *. simpl. by apply IH.
Qed.

(** Further runs that leave the counter off the rows, each from a state with
    every row expanded and the counter at 0.  Two nested folders:
    collapsing the inner and then the outer one leaves the counter at 1
    while two rows with a child are collapsed.  Three nested folders:
    collapsing the innermost and then the outermost leaves the counter at 2
    while one collapsed row is shown.  One file: [collapseAll] leaves the
    counter at 1 while no row has a child. *)
Lemma counter_differs_from_collapsed_rows :
  (let v := MkTreeView [MkRow true [MkRow true [MkRow true []]]]
              [] [] [] 0 false false [] in
   mCollapseCount v = collapsedInRows (model v) ∧
   ∃ v', performAll [CollapseRow [0%nat; 0%nat]; CollapseRow [0%nat]] v
         = Some v' ∧
         mCollapseCount v' = 1%Z ∧ collapsedInRows (model v') = 2%Z) ∧
  (let v := MkTreeView [MkRow true [MkRow true [MkRow true [MkRow true []]]]]
              [] [] [] 0 false false [] in
   mCollapseCount v = shownCollapsedInRows (model v) ∧
   ∃ v', performAll [CollapseRow [0%nat; 0%nat; 0%nat]; CollapseRow [0%nat]] v
         = Some v' ∧
         mCollapseCount v' = 2%Z ∧ shownCollapsedInRows (model v') = 1%Z) ∧
  (let v := MkTreeView [MkRow false []] [] [] [] 0 false false [] in
   mCollapseCount v = collapsedInRows (model v) ∧
   ∃ v', performAll [CollapseAll] v = Some v' ∧
         mCollapseCount v' = 1%Z ∧
         collapsedInRows (model v') = 0%Z ∧
         shownCollapsedInRows (model v') = 0%Z).
Proof.
  repeat split; try reflexivity; eexists; (split; [reflexivity|]);
    by vm_compute.
Qed.

(** On two nested folders: collapse the inner one, collapse the outer one,
    open it again, collapse everything, expand everything. *)
Lemma counter_tracks_rows_under_expanded_parents_witness :
  let v := MkTreeView [MkRow true [MkRow true [MkRow true []]]]
             [] [] [] 0 false false [] in
  let ops := [CollapseRow [0%nat; 0%nat]; CollapseRow [0%nat];
              ExpandRow [0%nat]; CollapseAll; ExpandAll] in
  ∃ v', performAll ops v = Some v' ∧ tracksUnderExpanded v'.
Proof.
  intros v ops.
  apply (counter_tracks_rows_under_expanded_parents ops v).
  - split; reflexivity.
  - by vm_compute.
Defined.

(** C1 fails on the code: a folder inside a folder, both collapsed, in the
    state the recount slot leaves (counter 2, the number of collapsed rows
    with a child).  Expanding the outer folder and then the inner one makes
    [itemExpanded] set the counter to 2 - 1 + 1 = 2 and then to
    2 - 1 + 0 = 1: the counter ends at 1 while no row of the model is
    collapsed, shown or hidden. *)
Theorem counter_positive_with_nothing_collapsed :
  let m := [MkRow false [MkRow false [MkRow false []]]] in
  let v0 := MkTreeView m [] [] [] 0 false false [] in
  ∃ v1 v2,
    updateCollapseCount_rowsInserted invalidIndex 0 0 v0 = Some v1 ∧
    mCollapseCount v1 = 2%Z ∧
    mCollapseCount v1 = collapsedInRows (model v1) ∧
    allAlong followed [ExpandRow [0%nat]; ExpandRow [0%nat; 0%nat]] v1
    = true ∧
    performAll [ExpandRow [0%nat]; ExpandRow [0%nat; 0%nat]] v1 = Some v2 ∧
    mCollapseCount v2 = 1%Z ∧
    collapsedInRows (model v2) = 0%Z ∧
    shownCollapsedInRows (model v2) = 0%Z ∧
    countCollapsed (model v2) parentDefault recursiveDefault = 0%Z.
Proof.
  do 2 eexists. split; [reflexivity|]. split; [reflexivity|].
  split; [reflexivity|]. split; [by vm_compute|].
  split; [reflexivity|]. by vm_compute.
Qed.

(** * Further properties of the handlers *)

(** ** countCollapsed *)

(** X1: [countCollapsed] obeys the loop of the source with itself as the
    inner call: for every model, parent and mode it is the sum, over the
    rows [i] of [parent], of 1 for a row that has a child and is not
    expanded, plus, when [recursive], [countCollapsed] of that row. *)
Theorem countCollapsed_unrolls
    (m : list Row) (parent : QModelIndex) (recursive : bool) :
  countCollapsed m parent recursive =
  fold_left
    (fun (count : Z) (i : nat) =>
       let idx := index i parent in
       let count :=
         if bool_decide (rowCount m idx ≠ 0%nat) && negb (isExpanded m idx)
         then (count + 1)%Z else count in
       if recursive
       then (count + countCollapsed m idx recursiveDefault)%Z
       else count)
    (seq 0 (rowCount m parent)) 0%Z.
Proof.
  change (rowCount m parent) with (length (rowsAt m parent)).
  destruct recursive.
  - rewrite countCollapsed_all, collapsedInRows_foldr.
    rewrite (fold_rows_sum _ collapsedIn); [lia|].
    intros i n c' Hn. simpl. rewrite (loop_test _ _ _ _ Hn).
    unfold recursiveDefault. rewrite countCollapsed_all.
    rewrite rowsAt_index, Hn, collapsedIn_eq.
    destruct (collapsedFolder n); simpl; lia.
  - rewrite countCollapsed_level, collapsedAmong_foldr.
    rewrite (fold_rows_sum _ (λ n, b2z (collapsedFolder n))); [lia|].
    intros i n c' Hn. simpl. rewrite (loop_test _ _ _ _ Hn).
    destruct (collapsedFolder n); simpl; lia.
Qed.

(** X2: the one-level call [countCollapsed(parent, false)] returns the
    number of rows directly below [parent] that have a child and are not
    expanded; it lies between 0 and [rowCount(parent)] and never exceeds the
    recursive count. *)
Theorem countCollapsed_one_level (m : list Row) (parent : QModelIndex) :
  countCollapsed m parent false = collapsedAmong (rowsAt m parent) ∧
  (0 ≤ countCollapsed m parent false ≤ Z.of_nat (rowCount m parent))%Z ∧
  (countCollapsed m parent false ≤ countCollapsed m parent true)%Z.
Proof.
  rewrite countCollapsed_level, countCollapsed_all. split; [done|].
  pose proof (collapsedAmong_nonneg (rowsAt m parent)).
  pose proof (collapsedAmong_le_length (rowsAt m parent)).
  pose proof (collapsedAmong_le_all (rowsAt m parent)).
  unfold rowCount. lia.
Qed.

(** ** The recount and the bulk operations *)

(** X4: the slot of [rowsInserted] never fails and does not look at its
    arguments: it sets the counter to the number of rows of the whole model
    that have a child and are not expanded, emits [collapseCountChanged]
    once (also when the value is the old one) and changes nothing else. *)
Theorem updateCollapseCount_rowsInserted_recounts
    (parent : QModelIndex) (first last : Z) (v : TreeView) :
  let recount := collapsedInRows (model v) in
  updateCollapseCount_rowsInserted parent first last v =
  Some (emit (collapseCountChanged recount) (withCollapseCount recount v)).
Proof.
  unfold updateCollapseCount_rowsInserted, recursiveDefault, parentDefault.
  rewrite countCollapsed_all. simpl.
  apply setCollapseCount_nonneg, collapsedInRows_nonneg.
Qed.

Lemma lookup_map_rows (f : Row → Row) (l : list Row) (i : nat) :
  List.map f l !! i = f <$> l !! i.
Proof.
  revert i. induction l as [|n l IH]; intros [|i]; simpl; try done.
Qed.

Lemma rowsAt_storeAll b idx : ∀ m,
  rowsAt (storeAll b m) idx = storeAll b (rowsAt m idx).
Proof.
  unfold storeAll.
  induction idx as [|r p IH]; intros m; simpl; [done|].
  rewrite lookup_map_rows. destruct (m !! r) as [[e cs]|]; simpl; [|done].
  apply IH.
Qed.

Lemma rowAt_storeAll b idx : ∀ m,
  rowAt (storeAll b m) idx = storeAllIn b <$> rowAt m idx.
Proof.
  unfold storeAll.
  induction idx as [|r p IH]; intros m; simpl; [done|].
  rewrite lookup_map_rows. destruct (m !! r) as [[e cs]|]; simpl; [|done].
  destruct p as [|r' p]; [done|]. apply IH.
Qed.

Lemma isExpanded_storeAll b m idx :
  isExpanded (storeAll b m) idx = b && bool_decide (is_Some (rowAt m idx)).
Proof.
  unfold isExpanded. rewrite rowAt_storeAll.
  destruct (rowAt m idx) as [[e cs]|]; simpl; by destruct b.
Qed.

Lemma rowCount_storeAll b m idx :
  rowCount (storeAll b m) idx = rowCount m idx.
Proof. unfold rowCount. by rewrite rowsAt_storeAll, length_storeAll. Qed.

Lemma collapsedInRows_storeAll_true l :
  collapsedInRows (storeAll true l) = 0%Z.
Proof.
  assert (∀ n, collapsedIn (storeAllIn true n) = 0%Z) as Hn.
  { induction n as [e cs IH] using Row_ind.
    rewrite collapsedIn_eq. simpl.
    rewrite collapsedFolder_flag, andb_false_r. simpl.
    induction IH as [|c cs' Hc _ IHcs]; simpl; [done|].
    by rewrite Hc, IHcs. }
  unfold storeAll.
  induction l as [|n l IH]; cbn [List.map collapsedInRows]; [done|].
  by rewrite Hn, IH.
Qed.

Lemma foldersIn_eq n :
  foldersIn n =
  (b2z (bool_decide (rowChildren n ≠ [])) + foldersInRows (rowChildren n))%Z.
Proof. by destruct n. Qed.

Lemma collapsedInRows_storeAll_false l :
  collapsedInRows (storeAll false l) = foldersInRows l.
Proof.
  assert (∀ n, collapsedIn (storeAllIn false n) = foldersIn n) as Hn.
  { induction n as [e cs IH] using Row_ind.
    rewrite collapsedIn_eq, foldersIn_eq. simpl.
    rewrite collapsedFolder_flag, andb_true_r.
    assert (bool_decide (List.map (storeAllIn false) cs ≠ [])
            = bool_decide (cs ≠ [])) as ->.
    { apply bool_decide_ext. by destruct cs. }
    f_equal.
    induction IH as [|c cs' Hc _ IHcs]; simpl; [done|].
    by rewrite Hc, IHcs. }
  unfold storeAll.
  induction l as [|n l IH]; cbn [List.map collapsedInRows foldersInRows];
    [done|].
  by rewrite Hn, IH.
Qed.

(** X5: [expandAll] never fails; it leaves every row of the model expanded
    and the row counts as they were, sets the counter to 0 and emits
    [collapseCountChanged] once, whatever the number of rows; a recount of
    the state it leaves gives 0 as well. *)
Theorem expandAll_expands_every_row (v : TreeView) :
  ∃ v', expandAll v = Some v' ∧
        (∀ idx, isExpanded (model v') idx
                = bool_decide (is_Some (rowAt (model v) idx))) ∧
        (∀ idx, rowCount (model v') idx = rowCount (model v) idx) ∧
        mCollapseCount v' = 0%Z ∧
        emitted v' = emitted v ++ [collapseCountChanged 0] ∧
        countCollapsed (model v') parentDefault recursiveDefault = 0%Z.
Proof.
  rewrite expandAll_eq. eexists. split; [done|]. cbn -[storeAll countCollapsed].
  split; [intros idx; by rewrite isExpanded_storeAll|].
  split; [intros idx; apply rowCount_storeAll|].
  do 2 (split; [done|]). unfold recursiveDefault, parentDefault.
  rewrite countCollapsed_all. apply collapsedInRows_storeAll_true.
Qed.

(** X6: [collapseAll] never fails; it leaves no row expanded, emits
    [collapseCountChanged] once, with the number of top-level rows, and a
    recount of the state it leaves gives the number of rows of the whole
    model that have a child. *)
Theorem collapseAll_then_recount (v : TreeView) :
  ∃ v', collapseAll v = Some v' ∧
        (∀ idx, isExpanded (model v') idx = false) ∧
        (∀ idx, rowCount (model v') idx = rowCount (model v) idx) ∧
        emitted v' =
        emitted v
          ++ [collapseCountChanged (Z.of_nat (rowCount (model v) invalidIndex))] ∧
        countCollapsed (model v') parentDefault recursiveDefault
        = foldersInRows (model v).
Proof.
  rewrite collapseAll_eq. eexists. split; [done|]. cbn -[storeAll countCollapsed].
  split; [intros idx; by rewrite isExpanded_storeAll|].
  split; [intros idx; apply rowCount_storeAll|].
  split; [done|]. unfold recursiveDefault, parentDefault.
  rewrite countCollapsed_all. apply collapsedInRows_storeAll_false.
Qed.

(** ** Expanding and collapsing the same row *)

Lemma storeExpanded_twice idx : ∀ m b b',
  storeExpanded (storeExpanded m idx b) idx b' = storeExpanded m idx b'.
Proof.
  induction idx as [|r p IH]; intros m b b'; [done|].
  cbn [storeExpanded]. destruct (m !! r) as [c|] eqn:Hc; [|by rewrite Hc].
  rewrite list_lookup_insert_eq by (by eapply lookup_lt_Some).
  rewrite list_insert_insert_eq. f_equal.
  destruct p as [|r' p]; [done|]. cbn [rowChildren rowExpanded].
  by rewrite IH.
Qed.

Lemma storeExpanded_same idx : ∀ m n,
  rowAt m idx = Some n → storeExpanded m idx (rowExpanded n) = m.
Proof.
  induction idx as [|r p IH]; intros m n Hn; [done|].
  cbn [storeExpanded rowAt] in *.
  destruct (m !! r) as [c|] eqn:Hc; [|done].
  apply list_insert_id. rewrite Hc. f_equal.
  destruct p as [|r' p].
  - injection Hn as ->. by destruct n.
  - rewrite (IH _ _ Hn). by destruct c.
Qed.

Lemma storeExpanded_back m idx n b :
  rowAt m idx = Some n →
  storeExpanded (storeExpanded m idx b) idx (rowExpanded n) = m.
Proof. intros Hn. by rewrite storeExpanded_twice, storeExpanded_same. Qed.

(** Projections of an updated view. *)
Local Ltac view_simpl :=
  cbn [model selectedIndexes currentIndex rootIndex mCollapseCount
       mSupressItemExpandStateChanged suppressDeselectionHandling emitted
       withModel withSelection withCollapseCount emit
       withSupressItemExpandStateChanged withSuppressDeselectionHandling
       setCurrentIndex setRootIndex rowExpanded rowChildren] in *.

Lemma QTreeView_expand_cases v idx n :
  rowAt (model v) idx = Some n → rowExpanded n = false →
  QTreeView_expand idx v =
  let v' := withModel (storeExpanded (model v) idx true) v in
  if mSupressItemExpandStateChanged v then Some v'
  else setCollapseCount
         (mCollapseCount v - 1 + collapsedAmong (rowChildren n))%Z v'.
Proof.
  intros Hn He. destruct (mSupressItemExpandStateChanged v) eqn:Hs.
  - unfold QTreeView_expand, itemExpanded. rewrite Hn, He. view_simpl.
    by rewrite Hs.
  - by rewrite (QTreeView_expand_eq _ _ _ Hs Hn He).
Qed.

Lemma QTreeView_collapse_cases v idx n :
  rowAt (model v) idx = Some n → rowExpanded n = true →
  QTreeView_collapse idx v =
  let v' := withModel (storeExpanded (model v) idx false) v in
  if mSupressItemExpandStateChanged v then Some v'
  else setCollapseCount
         (mCollapseCount v + 1 - collapsedAmong (rowChildren n))%Z v'.
Proof.
  intros Hn He. destruct (mSupressItemExpandStateChanged v) eqn:Hs.
  - unfold QTreeView_collapse, itemCollapsed. rewrite Hn, He. view_simpl.
    by rewrite Hs.
  - by rewrite (QTreeView_collapse_eq _ _ _ Hs Hn He).
Qed.

(** X7: with the counter not negative, expanding a row that was not
    expanded and then collapsing it again (or collapsing an expanded row and
    then expanding it again) gives back the expanded flags and the counter:
    if the first step passes its assertion, so does the second, whatever the
    row and whether or not a bulk operation suppresses the handlers. *)
Theorem expand_collapse_round_trip
    (v v1 : TreeView) (idx : QModelIndex) (n : Row) :
  rowAt (model v) idx = Some n →
  (0 ≤ mCollapseCount v)%Z →
  (if rowExpanded n then QTreeView_collapse idx v
   else QTreeView_expand idx v) = Some v1 →
  ∃ v2,
    (if rowExpanded n then QTreeView_expand idx v1
     else QTreeView_collapse idx v1) = Some v2 ∧
    model v2 = model v ∧
    mCollapseCount v2 = mCollapseCount v ∧
    selectedIndexes v2 = selectedIndexes v ∧
    mSupressItemExpandStateChanged v2 = mSupressItemExpandStateChanged v.
Proof.
  intros Hn Hc H1.
  pose proof (storeExpanded_back (model v) idx n) as Hback.
  destruct (rowExpanded n) eqn:He.
  - rewrite (QTreeView_collapse_cases _ _ _ Hn He) in H1. cbv zeta in H1.
    pose proof (rowAt_storeExpanded _ _ false _ Hn) as Hn1.
    destruct (mSupressItemExpandStateChanged v) eqn:Hs.
    + injection H1 as <-.
      match goal with
      | |- context [QTreeView_expand idx ?w] =>
          rewrite (QTreeView_expand_cases w idx _ Hn1 eq_refl)
      end. view_simpl.
      rewrite Hs. eexists; split; [done|]. view_simpl. by rewrite Hback.
    + destruct (setCollapseCount_Some _ _ _ H1) as (Hge & _).
      rewrite setCollapseCount_nonneg in H1 by done. injection H1 as <-.
      match goal with
      | |- context [QTreeView_expand idx ?w] =>
          rewrite (QTreeView_expand_cases w idx _ Hn1 eq_refl)
      end. view_simpl.
      rewrite Hs, setCollapseCount_nonneg by lia.
      eexists; split; [done|]. view_simpl. rewrite Hback by done.
      repeat split; try done; lia.
  - rewrite (QTreeView_expand_cases _ _ _ Hn He) in H1. cbv zeta in H1.
    pose proof (rowAt_storeExpanded _ _ true _ Hn) as Hn1.
    destruct (mSupressItemExpandStateChanged v) eqn:Hs.
    + injection H1 as <-.
      match goal with
      | |- context [QTreeView_collapse idx ?w] =>
          rewrite (QTreeView_collapse_cases w idx _ Hn1 eq_refl)
      end. view_simpl.
      rewrite Hs. eexists; split; [done|]. view_simpl. by rewrite Hback.
    + destruct (setCollapseCount_Some _ _ _ H1) as (Hge & _).
      rewrite setCollapseCount_nonneg in H1 by done. injection H1 as <-.
      match goal with
      | |- context [QTreeView_collapse idx ?w] =>
          rewrite (QTreeView_collapse_cases w idx _ Hn1 eq_refl)
      end. view_simpl.
      rewrite Hs, setCollapseCount_nonneg by lia.
      eexists; split; [done|]. view_simpl. rewrite Hback by done.
      repeat split; try done; lia.
Qed.

Lemma expand_collapse_round_trip_witness :
  let v := MkTreeView [MkRow false [MkRow false [MkRow false []]]]
             [] [] [] 2 false false [] in
  ∃ v1 v2,
    QTreeView_expand [0%nat] v = Some v1 ∧
    QTreeView_collapse [0%nat] v1 = Some v2 ∧
    model v2 = model v ∧ mCollapseCount v2 = mCollapseCount v.
Proof.
  intros v. eexists.
  destruct (expand_collapse_round_trip v _ [0%nat]
              (MkRow false [MkRow false [MkRow false []]])
              eq_refl ltac:(simpl; lia) eq_refl) as (v2 & H2 & Hm & Hc & _).
  exists v2. split; [reflexivity|]. split; [exact H2|]. by split.
Defined.

(** ** Invariants of the counter *)

Lemma perform_counter op v v' :
  perform op v = Some v' →
  mCollapseCount v' = mCollapseCount v ∧ emitted v' = emitted v ∨
  (0 ≤ mCollapseCount v')%Z ∧
  emitted v' = emitted v ++ [collapseCountChanged (mCollapseCount v')].
Proof.
  assert (∀ value w, setCollapseCount value w = Some v' →
            (0 ≤ mCollapseCount v')%Z ∧
            emitted v' = emitted w ++ [collapseCountChanged (mCollapseCount v')])
    as Hset.
  { intros value w H. unfold setCollapseCount in H.
    case_bool_decide; simpl in H; [|done]. by injection H as <-. }
  destruct op as [idx|idx| |]; simpl.
  - unfold QTreeView_expand, itemExpanded.
    destruct (rowAt (model v) idx) as [n|]; [|intros [= <-]; by left].
    destruct (rowExpanded n); [intros [= <-]; by left|]. view_simpl.
    destruct (mSupressItemExpandStateChanged v); [intros [= <-]; by left|].
    intros H. right. apply (Hset _ _ H).
  - unfold QTreeView_collapse, itemCollapsed.
    destruct (rowAt (model v) idx) as [n|]; [|intros [= <-]; by left].
    destruct (rowExpanded n); [|intros [= <-]; by left]. view_simpl.
    destruct (mSupressItemExpandStateChanged v); [intros [= <-]; by left|].
    intros H. right. apply (Hset _ _ H).
  - rewrite expandAll_eq. intros [= <-]. right. by view_simpl.
  - rewrite collapseAll_eq. intros [= <-]. right. view_simpl.
    split; [lia|done].
Qed.

Lemma lastAnnounced_snoc sigs sig :
  lastAnnounced (sigs ++ [sig]) =
  match sig with
  | collapseCountChanged count => Some count
  | fileSelected _ => lastAnnounced sigs
  end.
Proof.
  induction sigs as [|s sigs IH]; simpl; [by destruct sig|].
  rewrite IH. destruct sig; [|done].
  by destruct (lastAnnounced sigs).
Qed.

Lemma selection_keeps_announced selected deselected v :
  announced v → announced (handleSelectionChange selected deselected v).
Proof.
  unfold announced. intros Ha.
  destruct (handleSelectionChange_eq selected deselected v)
    as [->|[parent [->| ->]]];
    destruct (selectedIndexes v) as [|i [|j sel]]; view_simpl;
    by rewrite ?lastAnnounced_snoc.
Qed.

(** X9: the latest [collapseCountChanged] a listener has received carries
    the counter.  [expandAll], [collapseAll], the slot of [rowsInserted] and
    the slot of [dataChanged] for a first role [Qt::CheckStateRole]
    establish this whenever they return; once it holds it is kept by every
    sequence of single-row and bulk operations, by the slot of
    [dataChanged] for any roles (which returns without a recount for
    another first role), by [handleSelectionChange] and by
    [deselectAll]. *)
Theorem counter_is_announced (v : TreeView) :
  announced v →
  (∀ ops v', performAll ops v = Some v' → announced v') ∧
  (∀ topLeft bottomRight roles v',
     updateCollapseCount_dataChanged topLeft bottomRight roles v = Some v' →
     announced v') ∧
  (∀ selected deselected,
     announced (handleSelectionChange selected deselected v)) ∧
  announced (deselectAll v) ∧
  (∀ w w', expandAll w = Some w' ∨ collapseAll w = Some w' → announced w') ∧
  (∀ w w' parent first last topLeft bottomRight roles,
     updateCollapseCount_rowsInserted parent first last w = Some w' ∨
     updateCollapseCount_dataChanged topLeft bottomRight
       (CheckStateRole :: roles) w = Some w' →
     announced w').
Proof.
  assert (∀ value w w', setCollapseCount value w = Some w' → announced w')
    as Hset.
  { intros value w w' H. unfold setCollapseCount in H.
    case_bool_decide; simpl in H; [|done]. injection H as <-.
    unfold announced. view_simpl. by rewrite lastAnnounced_snoc. }
  intros Ha. repeat split.
  - intros ops. revert v Ha.
    induction ops as [|op ops IH]; intros v Ha v' H; simpl in H.
    { by injection H as <-. }
    destruct (perform op v) as [v1|] eqn:H1; [|done]. simpl in H.
    apply (IH v1); [|done]. unfold announced in *.
    destruct (perform_counter _ _ _ H1) as [[-> ->]|[_ ->]]; [done|].
    by rewrite lastAnnounced_snoc.
  - intros topLeft bottomRight roles v' H.
    unfold updateCollapseCount_dataChanged in H.
    destruct (bool_decide (topLeft = bottomRight)); simpl in H; [|done].
    destruct roles as [|role roles]; simpl in H; [done|].
    destruct (bool_decide (role ≠ CheckStateRole)).
    + by injection H as <-.
    + by apply (Hset _ _ _ H).
  - intros. by apply selection_keeps_announced.
  - unfold deselectAll, clearSelection, QItemSelectionModel_select.
    cbv zeta. unfold announced in *.
    destruct (_ && _); [done|].
    match goal with
    | |- context [handleSelectionChange ?a ?b ?c] =>
        pose proof (selection_keeps_announced a b c Ha) as H
    end.
    exact H.
  - intros w w' [H|H].
    + rewrite expandAll_eq in H. injection H as <-. unfold announced.
      view_simpl. by rewrite lastAnnounced_snoc.
    + rewrite collapseAll_eq in H. injection H as <-. unfold announced.
      view_simpl. by rewrite lastAnnounced_snoc.
  - intros w w' parent first last topLeft bottomRight roles [H|H].
    + by apply (Hset _ _ _ H).
    + unfold updateCollapseCount_dataChanged in H.
      case_bool_decide; simpl in H; [|done].
      by apply (Hset _ _ _ H).
Qed.

Lemma counter_is_announced_witness :
  let v := MkTreeView [MkRow false [MkRow false []]] [[0%nat]] [] [] 1
             false false [collapseCountChanged 1] in
  ∃ v', performAll [ExpandRow [0%nat]; CollapseRow [0%nat]] v = Some v' ∧
        announced v' ∧ announced (deselectAll v).
Proof.
  intros v.
  destruct (counter_is_announced v eq_refl) as (Hops & _ & _ & Hd & _).
  eexists. split; [reflexivity|]. split; [|exact Hd].
  apply (Hops [ExpandRow [0%nat]; CollapseRow [0%nat]]). reflexivity.
Defined.

(** ** Is anything collapsed? *)

Lemma shownCollapsedIn_eq n :
  shownCollapsedIn n =
  (b2z (collapsedFolder n)
   + if rowExpanded n then shownCollapsedInRows (rowChildren n) else 0)%Z.
Proof. by destruct n as [[] cs]. Qed.

Lemma shownCollapsedIn_nonneg n : (0 ≤ shownCollapsedIn n)%Z.
Proof.
  induction n as [e cs IH] using Row_ind. rewrite shownCollapsedIn_eq. simpl.
  assert (0 ≤ shownCollapsedInRows cs)%Z as Hcs.
  { induction IH as [|c cs' Hc _ IHcs]; simpl; lia. }
  pose proof (b2z_nonneg (collapsedFolder (MkRow e cs))).
  destruct e; lia.
Qed.

Lemma shownCollapsedInRows_nonneg l : (0 ≤ shownCollapsedInRows l)%Z.
Proof.
  induction l as [|n l IH]; simpl; [lia|].
  pose proof (shownCollapsedIn_nonneg n). lia.
Qed.

Lemma shownCollapsedInRows_le l :
  (shownCollapsedInRows l ≤ collapsedUnderExpandedRows true l)%Z.
Proof.
  assert (∀ n, shownCollapsedIn n ≤ collapsedUnderExpandedIn true n)%Z as Hn.
  { induction n as [e cs IH] using Row_ind.
    rewrite shownCollapsedIn_eq, collapsedUnderExpandedIn_eq. simpl.
    pose proof (collapsedUnderExpandedRows_nonneg e cs).
    destruct e; [|lia].
    enough (shownCollapsedInRows cs ≤ collapsedUnderExpandedRows true cs)%Z
      by lia.
    clear H. induction IH as [|c cs' Hc _ IHcs]; simpl; lia. }
  induction l as [|n l IH]; simpl; [lia|]. specialize (Hn n). lia.
Qed.

Lemma nothing_shown_nothing_collapsed l :
  shownCollapsedInRows l = 0%Z → collapsedInRows l = 0%Z.
Proof.
  assert (∀ n, shownCollapsedIn n = 0 → collapsedIn n = 0)%Z as Hn.
  { induction n as [e cs IH] using Row_ind.
    rewrite shownCollapsedIn_eq, collapsedIn_eq. simpl.
    rewrite collapsedFolder_flag.
    pose proof (shownCollapsedInRows_nonneg cs).
    destruct cs as [|c cs]; [by destruct e|].
    rewrite bool_decide_eq_true_2 by done.
    destruct e; cbn [andb negb b2z]; [|lia]. intros Hz.
    enough (collapsedInRows (c :: cs) = 0)%Z by lia.
    assert (shownCollapsedInRows (c :: cs) = 0)%Z as Hs by lia.
    clear Hz H. revert Hs.
    induction IH as [|c' cs' Hc _ IHcs]; simpl; [done|].
    pose proof (shownCollapsedIn_nonneg c').
    pose proof (shownCollapsedInRows_nonneg cs').
    intros Hs. rewrite Hc, IHcs by lia. done. }
  induction l as [|n l IH]; simpl; [done|].
  pose proof (shownCollapsedIn_nonneg n).
  pose proof (shownCollapsedInRows_nonneg l).
  intros Hs. rewrite Hn, IH by lia. done.
Qed.

(** X10: for every model, the recount is at least the number of collapsed
    folders under expanded parents, which is at least the number of
    collapsed folders that are shown; and the recount is 0 exactly when no
    collapsed folder is shown. *)
Theorem recount_zero_iff_nothing_shown (m : list Row) :
  (shownCollapsedInRows m ≤ collapsedUnderExpanded m
   ≤ countCollapsed m parentDefault recursiveDefault)%Z ∧
  (countCollapsed m parentDefault recursiveDefault = 0%Z
   ↔ shownCollapsedInRows m = 0%Z).
Proof.
  unfold parentDefault, recursiveDefault, collapsedUnderExpanded.
  rewrite countCollapsed_all. cbn [rowsAt invalidIndex].
  pose proof (shownCollapsedInRows_le m).
  pose proof (collapsedUnderExpandedRows_le m true).
  pose proof (shownCollapsedInRows_nonneg m).
  split; [lia|]. split; [lia|]. apply nothing_shown_nothing_collapsed.
Qed.



(** The bound that keeps the assertion, after [collapseAll] on a folder and
    a file: open the folder, close it, expand everything. *)
Lemma assertion_holds_for_followed_rows_witness :
  let v := MkTreeView [MkRow false [MkRow false []]; MkRow false []]
             [] [] [] 2 false false [] in
  let ops := [ExpandRow [0%nat]; CollapseRow [0%nat]; ExpandAll] in
  ∃ v', performAll ops v = Some v' ∧ coversUnderExpanded v'.
Proof.
  intros v ops. apply (assertion_holds_for_followed_rows ops v).
  - split; [reflexivity|]. by vm_compute.
  - by vm_compute.
Defined.

(** ** The assertion within the range of the counter *)

Lemma foldersInRows_sum l : foldersInRows l = sumRows foldersIn l.
Proof. induction l as [|n l IH]; simpl; [done|]. by rewrite IH. Qed.

Lemma foldersInRows_storeExpanded idx : ∀ m b,
  foldersInRows (storeExpanded m idx b) = foldersInRows m.
Proof.
  induction idx as [|r p IH]; intros m b; [done|].
  cbn [storeExpanded]. destruct (m !! r) as [c|] eqn:Hc; [|done].
  rewrite foldersInRows_sum, (sumRows_insert _ _ _ c) by done.
  rewrite <- foldersInRows_sum, !foldersIn_eq.
  destruct p as [|r' p]; cbn [rowChildren rowExpanded]; [lia|].
  rewrite IH.
  assert (bool_decide (storeExpanded (rowChildren c) (r' :: p) b ≠ [])
          = bool_decide (rowChildren c ≠ [])) as ->.
  { apply bool_decide_ext. by rewrite storeExpanded_nil_iff. }
  lia.
Qed.

Lemma foldersInRows_storeAll b l :
  foldersInRows (storeAll b l) = foldersInRows l.
Proof.
  assert (∀ n, foldersIn (storeAllIn b n) = foldersIn n) as Hn.
  { induction n as [e cs IH] using Row_ind.
    rewrite !foldersIn_eq. simpl.
    assert (bool_decide (List.map (storeAllIn b) cs ≠ [])
            = bool_decide (cs ≠ [])) as ->.
    { apply bool_decide_ext. by destruct cs. }
    f_equal.
    induction IH as [|c cs' Hc _ IHcs]; simpl; [done|].
    by rewrite Hc, IHcs. }
  unfold storeAll.
  induction l as [|n l IH]; cbn [List.map foldersInRows]; [done|].
  by rewrite Hn, IH.
Qed.

Lemma collapsedInRows_le_folders l :
  (collapsedInRows l ≤ foldersInRows l)%Z.
Proof.
  assert (∀ n, collapsedIn n ≤ foldersIn n)%Z as Hn.
  { induction n as [e cs IH] using Row_ind.
    rewrite collapsedIn_eq, foldersIn_eq, collapsedFolder_flag. simpl.
    assert (collapsedInRows cs ≤ foldersInRows cs)%Z as Hcs.
    { induction IH as [|c cs' Hc _ IHcs]; simpl; lia. }
    destruct (bool_decide (cs ≠ [])), e; simpl; lia. }
  induction l as [|n l IH]; simpl; [lia|]. specialize (Hn n). lia.
Qed.

(** The operations store flags only: the shape of the model stays. *)
Lemma perform_shape op v v' :
  perform op v = Some v' →
  length (model v') = length (model v) ∧
  foldersInRows (model v') = foldersInRows (model v).
Proof.
  assert (∀ value w, setCollapseCount value w = Some v' →
            model v' = model w) as Hset.
  { intros value w H. by apply setCollapseCount_Some in H as (_ & _ & -> & _). }
  assert (∀ idx b, model v' = storeExpanded (model v) idx b →
            length (model v') = length (model v) ∧
            foldersInRows (model v') = foldersInRows (model v)) as Hstore.
  { intros idx b ->.
    by rewrite length_storeExpanded, foldersInRows_storeExpanded. }
  destruct op as [idx|idx| |]; simpl.
  - unfold QTreeView_expand, itemExpanded.
    destruct (rowAt (model v) idx) as [n|]; [|by intros [= <-]].
    destruct (rowExpanded n); [by intros [= <-]|]. view_simpl.
    destruct (mSupressItemExpandStateChanged v).
    + intros [= <-]. by apply (Hstore idx true).
    + intros H. apply (Hstore idx true). by rewrite (Hset _ _ H).
  - unfold QTreeView_collapse, itemCollapsed.
    destruct (rowAt (model v) idx) as [n|]; [|by intros [= <-]].
    destruct (rowExpanded n); [|by intros [= <-]]. view_simpl.
    destruct (mSupressItemExpandStateChanged v).
    + intros [= <-]. by apply (Hstore idx false).
    + intros H. apply (Hstore idx false). by rewrite (Hset _ _ H).
  - rewrite expandAll_eq. intros [= <-]. view_simpl.
    by rewrite length_storeAll, foldersInRows_storeAll.
  - rewrite collapseAll_eq. intros [= <-]. view_simpl.
    by rewrite length_storeAll, foldersInRows_storeAll.
Qed.

Lemma perform_followedRow_within slack op v :
  (Z.of_nat (length (model v)) ≤ slack)%Z →
  coversWithin slack v →
  followedRow op v = true →
  ∃ v', perform op v = Some v' ∧ coversWithin slack v'.
Proof.
  intros Hlen (Hs & Hlo & Hhi) Hf. destruct op as [idx|idx| |]; simpl in *.
  - apply andb_true_iff in Hf as [Hrows%bool_decide_eq_true_1 Hsh].
    destruct (expand_row_offset v idx) as (v' & Hv' & Hs' & Hc');
      [done..|].
    exists v'. split; [done|]. split; [done|]. lia.
  - apply andb_true_iff in Hf as [Hrows%bool_decide_eq_true_1 Hsh].
    destruct (collapse_row_offset v idx) as (v' & Hv' & Hs' & Hc');
      [done..|].
    exists v'. split; [done|]. split; [done|]. lia.
  - rewrite expandAll_eq. eexists; split; [done|]. split; [done|].
    unfold collapsedUnderExpanded; view_simpl.
    rewrite collapsedUnderExpanded_storeAll_true. lia.
  - rewrite collapseAll_eq. eexists; split; [done|]. split; [done|].
    unfold collapsedUnderExpanded; view_simpl.
    rewrite collapsedUnderExpandedRows_split.
    rewrite collapsedUnderExpanded_storeAll_false.
    pose proof (collapsedAmong_le_length (storeAll false (model v))) as H.
    pose proof (collapsedAmong_nonneg (storeAll false (model v))).
    rewrite length_storeAll in H. lia.
Qed.

(** X16: where the assertion of [setCollapseCount] does hold, within the
    range of the [int].  Let the counter be at least the number of collapsed
    folders under expanded parents and exceed it by [slack] at most, where
    [slack] is no less than the number of top-level rows and the number of
    rows with a child plus [slack] is below [INT_MAX].  Then every sequence
    of expanding and collapsing rows that have a child and sit under an
    expanded parent, and of [expandAll] and [collapseAll], passes the
    assertion and keeps the counter in that band, hence below [INT_MAX]: no
    sum or difference the handlers form leaves the range of the [int]. *)
Theorem assertion_holds_within_int
    (slack : Z) (ops : list Operation) (v : TreeView) :
  (Z.of_nat (rowCount (model v) invalidIndex) ≤ slack)%Z →
  (foldersInRows (model v) + slack < intMax)%Z →
  coversWithin slack v →
  allAlong followedRow ops v = true →
  ∃ v', performAll ops v = Some v' ∧
        coversWithin slack v' ∧
        (0 ≤ mCollapseCount v' < intMax)%Z.
Proof.
  unfold rowCount. cbn [rowsAt invalidIndex].
  revert v. induction ops as [|op ops IH]; intros v Hlen Hfold Hc Hf;
    simpl in *.
  - exists v. split; [done|]. split; [done|].
    destruct Hc as (_ & Hlo & Hhi).
    pose proof (collapsedUnderExpandedRows_nonneg true (model v)).
    pose proof (collapsedUnderExpandedRows_le (model v) true).
    pose proof (collapsedInRows_le_folders (model v)).
    unfold collapsedUnderExpanded in *. lia.
  - apply andb_true_iff in Hf as [Hop Hrest].
    destruct (perform_followedRow_within slack op v Hlen Hc Hop)
      as (v1 & Hv1 & Hc1).
    destruct (perform_shape _ _ _ Hv1) as [Hl1 Hf1].
    rewrite Hv1 in *. simpl. apply IH; [by rewrite Hl1|by rewrite Hf1|done..].
Qed.

Lemma assertion_holds_within_int_witness :
  let v := MkTreeView [MkRow false [MkRow false []]; MkRow false []]
             [] [] [] 2 false false [] in
  let ops := [ExpandRow [0%nat]; CollapseRow [0%nat]; CollapseAll;
              ExpandAll] in
  ∃ v', performAll ops v = Some v' ∧
        coversWithin 2 v' ∧
        (0 ≤ mCollapseCount v' < intMax)%Z.
Proof.
  intros v ops. apply (assertion_holds_within_int 2 ops v).
  - by vm_compute.
  - by vm_compute.
  - split; [reflexivity|]. by vm_compute.
  - by vm_compute.
Defined.

Lemma handleSelectionChange_unfold selected deselected v :
  handleSelectionChange selected deselected v =
  let told :=
    match selectedIndexes v with
    | [] => v
    | [index] => emit (fileSelected index) v
    | _ :: _ :: _ => emit (fileSelected invalidIndex) v
    end in
  if suppressDeselectionHandling v then told
  else if bool_decide (selectedIndexes v = [])
          && negb (bool_decide (deselected = []))
  then
    let parent := parentOf (default invalidIndex (head deselected)) in
    if negb (isValid parent)
    then setRootIndex invalidIndex (setCurrentIndex parent told)
    else setCurrentIndex parent told
  else told.
Proof.
  unfold handleSelectionChange. cbv zeta.
  assert ((if bool_decide (0 < length (selectedIndexes v))%nat
           then emit (fileSelected
                        (if bool_decide (length (selectedIndexes v) = 1%nat)
                         then default invalidIndex (head (selectedIndexes v))
                         else invalidIndex)) v
           else v) =
          match selectedIndexes v with
          | [] => v
          | [index] => emit (fileSelected index) v
          | _ :: _ :: _ => emit (fileSelected invalidIndex) v
          end) as ->.
  { by destruct (selectedIndexes v) as [|i [|j sel]]. }
  by destruct (selectedIndexes v) as [|i [|j sel]].
Qed.

(** X12: [handleSelectionChange] never changes the rows, the counter or
    either suppression flag; and with at least one index selected it handles
    no deselection: selection, current index and root index are as
    before. *)
Theorem handleSelectionChange_frame
    (selected deselected : list QModelIndex) (v : TreeView) :
  let v' := handleSelectionChange selected deselected v in
  model v' = model v ∧
  mCollapseCount v' = mCollapseCount v ∧
  mSupressItemExpandStateChanged v' = mSupressItemExpandStateChanged v ∧
  suppressDeselectionHandling v' = suppressDeselectionHandling v ∧
  match selectedIndexes v with
  | [] => True
  | _ :: _ =>
      selectedIndexes v' = selectedIndexes v ∧
      currentIndex v' = currentIndex v ∧ rootIndex v' = rootIndex v
  end.
Proof.
  rewrite handleSelectionChange_unfold.
  destruct (selectedIndexes v) as [|i [|j sel]] eqn:Hsel;
    destruct (suppressDeselectionHandling v) eqn:Hs; cbn;
    rewrite ?Hsel, ?Hs; try done;
    destruct (negb (bool_decide (deselected = []))); cbn;
    rewrite ?Hsel, ?Hs; try done;
    destruct (negb (isValid _)); cbn; by rewrite ?Hsel, ?Hs.
Qed.

(** X13: what the deselection handling does when it runs (no index
    selected, something deselected, handling not suppressed): the parent of
    the first deselected index becomes the current index, and the root index
    is reset to the invalid index when that parent is invalid, that is when
    a top-level row was deselected; the root index stays otherwise. *)
Theorem handleSelectionChange_deselection
    (selected rest : list QModelIndex) (first : QModelIndex) (v : TreeView) :
  selectedIndexes v = [] →
  suppressDeselectionHandling v = false →
  let v' := handleSelectionChange selected (first :: rest) v in
  currentIndex v' = parentOf first ∧
  rootIndex v' =
  (if bool_decide (length first ≤ 1)%nat then invalidIndex else rootIndex v).
Proof.
  intros Hsel Hs. rewrite handleSelectionChange_unfold, Hsel, Hs. cbn.
  by destruct first as [|r [|r' p]].
Qed.

Lemma handleSelectionChange_deselection_witness :
  let v := MkTreeView [MkRow true [MkRow false []]] [] [0%nat; 0%nat]
             [0%nat] 0 false false [] in
  currentIndex (handleSelectionChange [] [[0%nat; 0%nat]] v) = [0%nat] ∧
  rootIndex (handleSelectionChange [] [[0%nat; 0%nat]] v) = [0%nat] ∧
  rootIndex (handleSelectionChange [] [[0%nat]] v) = invalidIndex.
Proof.
  intros v.
  destruct (handleSelectionChange_deselection [] [] [0%nat; 0%nat] v
              eq_refl eq_refl) as [H1 H2].
  destruct (handleSelectionChange_deselection [] [] [0%nat] v
              eq_refl eq_refl) as [_ H3].
  exact (conj H1 (conj H2 H3)).
Defined.

Lemma handleSelectionChange_suppressed selected deselected v :
  selectedIndexes v = [] → suppressDeselectionHandling v = true →
  handleSelectionChange selected deselected v = v.
Proof.
  intros Hsel Hs. by rewrite handleSelectionChange_unfold, Hsel, Hs.
Qed.

(** X14: [deselectAll] empties the selection and does nothing else: no
    signal is emitted, current index, root index, rows and counter stay, and
    [suppressDeselectionHandling] is false afterwards. *)
Theorem deselectAll_only_clears (v : TreeView) :
  deselectAll v =
  withSuppressDeselectionHandling false (withSelection [] v).
Proof.
  unfold deselectAll, clearSelection, QItemSelectionModel_select. cbv zeta.
  destruct (_ && _); [done|].
  by rewrite handleSelectionChange_suppressed.
Qed.



(** ** Discard without its preconditions *)

(** X17: [discard] stops at one of its assertions exactly when the model of
    the view is not a sort/filter proxy over a [DiffTreeModel]: no model, a
    model of another class, a proxy without source model or a proxy over
    another model.  The parent view plays no part in building the dialog. *)
Theorem discard_fails_without_diff_model (w : Widget) (index : QModelIndex) :
  discard w index = None ↔
  ¬ ∃ d mapToSource,
      itemModel w = Some (SortFilterProxy (Some (DiffTreeSource d)) mapToSource).
Proof.
  unfold discard.
  destruct (itemModel w) as [[[[d|]|] f|]|]; simpl; split; try done.
  - intros H. exfalso. apply H. by exists d, f.
  - by intros _ (d & g & ?).
  - by intros _ (d & g & ?).
  - by intros _ (d & g & ?).
  - by intros _ (d & g & ?).
Qed.

(** X18: the slot of the Discard button calls the model's [discard] first
    and exactly once in every case, and it runs to its end exactly when that
    call succeeded or a parent view exists; when the call fails and there is
    no parent view, the assertion on the view stops the slot before any log
    entry is added or error shown. *)
Theorem discardClicked_without_parent_view
    (w : Widget) (m : DiffTreeModel) (sIndex : QModelIndex) :
  let '(trace, completed) := discardClicked w m sIndex in
  head trace = Some (ModelDiscard sIndex) ∧
  countEffects isModelDiscard trace = 1%nat ∧
  completed = discardResult m sIndex || bool_decide (is_Some (parentView w)) ∧
  if completed then True
  else countEffects isAddLogEntry trace = 0%nat ∧
       countEffects isShowError trace = 0%nat.
Proof.
  unfold discardClicked.
  destruct (discardResult m sIndex); [done|].
  by destruct (parentView w).
Qed.
